(** * Slow Query Analyzer: extraction, classification, aggregation, ranking

    A shallow embedding of [slow_query_analyzer.py] (class
    [SlowQueryAnalyzer]) and the properties of its core engine.

    Modelling conventions.
    - A Python [str] is a [list ascii]; the character classes of [re]
      ([\d], [\s], [\w]), [str.lower] and [str.strip] are the ones Python
      applies to the ASCII range.  Characters above 127 belong to none of
      the classes and are left alone by [lower].
    - A Python [int] is a [Z] (unbounded); lengths that are only counted
      are [nat].
    - [int / int] (true division) is kept as the exact rational quotient
      in [Q].  Floating point is not modelled: neither the rounding of the
      quotient to the nearest double, nor the [OverflowError] of a
      quotient beyond the range of a double.
    - A [dict] is an association list in insertion order with unique keys.
    - Exceptions are values of [result].
    - A pattern of [re] is a term of [regex], run by a backtracking matcher
      that tries the alternatives in the order of Python's engine.
    - File discovery and decoding are outside the engine: a file is given
      as its path together with its decoded content.  The clock read by
      [get_statistics] is an argument. *)

From Stdlib Require Import Ascii String List ZArith QArith Lia Bool Arith.
From Stdlib Require Import Sorting.Sorted Sorting.Permutation.
Import ListNotations.

Set Implicit Arguments.

Local Open Scope Z_scope.

(* ================================================================= *)
(** ** Strings *)

Definition str := list ascii.

(** String literals of the source are written [$"..."]. *)
Notation "$ s" := (list_ascii_of_string s) (at level 1, format "$ s").

Definition code (c : ascii) : nat := nat_of_ascii c.

Definition in_range (lo hi : nat) (c : ascii) : bool :=
  (Nat.leb lo (code c) && Nat.leb (code c) hi)%bool.

(** [\d] *)
Definition is_digit (c : ascii) : bool := in_range 48 57 c.

Definition is_upper (c : ascii) : bool := in_range 65 90 c.

Definition is_lower (c : ascii) : bool := in_range 97 122 c.

(** [\s] and [str.isspace]: tab, newline, vertical tab, form feed, carriage
    return, the four separators 28..31 and the blank. *)
Definition is_space (c : ascii) : bool :=
  (in_range 9 13 c || in_range 28 32 c)%bool.

(** [\w] *)
Definition is_word (c : ascii) : bool :=
  (is_lower c || is_upper c || is_digit c || Nat.eqb (code c) 95)%bool.

Definition to_lower (c : ascii) : ascii :=
  if is_upper c then ascii_of_nat (code c + 32) else c.

(** [str.lower] *)
Definition lower (s : str) : str := map to_lower s.

Fixpoint drop_while (p : ascii -> bool) (s : str) : str :=
  match s with
  | c :: s' => if p c then drop_while p s' else s
  | [] => []
  end.

Fixpoint take_while (p : ascii -> bool) (s : str) : str :=
  match s with
  | c :: s' => if p c then c :: take_while p s' else []
  | [] => []
  end.

(** [str.strip] *)
Definition strip (s : str) : str :=
  rev (drop_while is_space (rev (drop_while is_space s))).

Fixpoint startswith (p s : str) : bool :=
  match p, s with
  | [], _ => true
  | a :: p', b :: s' => (Ascii.eqb a b && startswith p' s')%bool
  | _ :: _, [] => false
  end.

Definition str_eqb (a b : str) : bool :=
  if list_eq_dec ascii_dec a b then true else false.

(** [os.path.basename] (POSIX): what follows the last slash. *)
Fixpoint basename_acc (acc s : str) : str :=
  match s with
  | [] => rev acc
  | c :: s' => if Ascii.eqb c "/" then basename_acc [] s' else basename_acc (c :: acc) s'
  end.

Definition basename (p : str) : str := basename_acc [] p.

(* ================================================================= *)
(** ** Exceptions *)

Inductive exception := ValueError | ZeroDivisionError | IndexError.

Inductive result (A : Type) :=
| Ok (a : A)
| Raise (e : exception).

Arguments Ok {A} a.
Arguments Raise {A} e.

Definition bind {A B} (m : result A) (f : A -> result B) : result B :=
  match m with
  | Ok a => f a
  | Raise e => Raise e
  end.

Notation "x <- m ;; k" := (bind m (fun x => k))
  (at level 61, m at next level, right associativity).

(* ================================================================= *)
(** ** The fragment of [re] the program uses *)

(** Every pattern of the source is a concatenation of literal characters,
    character classes, repetitions of one class, and capture groups that do
    not nest.  [\d{4}] is four copies of the class, [p+] is [p p*]. *)
Inductive regex :=
| Eps
| Chr (c : ascii)
| Class (p : ascii -> bool)
| Seq (r1 r2 : regex)
| Star (p : ascii -> bool)       (* greedy  [p*]  *)
| LazyStar (p : ascii -> bool)   (* lazy    [p*?] *)
| Group (r : regex).

Fixpoint Lit (s : str) : regex :=
  match s with
  | [] => Eps
  | c :: s' => Seq (Chr c) (Lit s')
  end.

Fixpoint Rep (n : nat) (p : ascii -> bool) : regex :=
  match n with
  | O => Eps
  | S n' => Seq (Class p) (Rep n' p)
  end.

Definition Plus (p : ascii -> bool) : regex := Seq (Class p) (Star p).

Fixpoint Cat (rs : list regex) : regex :=
  match rs with
  | [] => Eps
  | r :: rs' => Seq r (Cat rs')
  end.

(** The backtracking matcher, in continuation-passing style: [k] is what
    remains of the pattern.  Alternatives are tried in the order of the
    [sre] engine: a greedy star takes the longest run first and gives
    characters back one by one, a lazy star tries the rest of the pattern
    first and takes one more character each time that fails.  [caps] holds
    the groups closed so far, in the order of their numbers. *)
Fixpoint rmatch {A} (r : regex) (s : str) (caps : list str)
         (k : str -> list str -> option A) : option A :=
  match r with
  | Eps => k s caps
  | Chr c =>
      match s with
      | x :: s' => if Ascii.eqb x c then k s' caps else None
      | [] => None
      end
  | Class p =>
      match s with
      | x :: s' => if p x then k s' caps else None
      | [] => None
      end
  | Seq r1 r2 => rmatch r1 s caps (fun s1 caps1 => rmatch r2 s1 caps1 k)
  | Star p =>
      (fix greedy (t : str) : option A :=
         match t with
         | x :: t' =>
             if p x
             then match greedy t' with
                  | Some a => Some a
                  | None => k t caps
                  end
             else k t caps
         | [] => k t caps
         end) s
  | LazyStar p =>
      (fix lazy (t : str) : option A :=
         match k t caps with
         | Some a => Some a
         | None =>
             match t with
             | x :: t' => if p x then lazy t' else None
             | [] => None
             end
         end) s
  | Group r1 =>
      rmatch r1 s caps
        (fun s' caps' => k s' (caps' ++ [firstn (length s - length s') s]))
  end.

(** A match anchored at the start of [s]: the groups and the text left. *)
Definition match_at (r : regex) (s : str) : option (list str * str) :=
  rmatch r s [] (fun s' caps => Some (caps, s')).

(** [re.search]: the groups of the leftmost match. *)
Fixpoint search (r : regex) (s : str) : option (list str) :=
  match match_at r s with
  | Some (caps, _) => Some caps
  | None =>
      match s with
      | [] => None
      | _ :: s' => search r s'
      end
  end.

(** [re.findall]: the groups of all non-overlapping matches, left to right.
    After a match the scan resumes where it ended (one character further
    after an empty match).  Each call is on a shorter text, so
    [S (length s)] steps are enough (see [findall_fuel_enough]). *)
Fixpoint findall_fuel (n : nat) (r : regex) (s : str) : list (list str) :=
  match n with
  | O => []
  | S n' =>
      match match_at r s with
      | Some (caps, rest) =>
          caps ::
            (if Nat.ltb (length rest) (length s)
             then findall_fuel n' r rest
             else match s with
                  | [] => []
                  | _ :: s' => findall_fuel n' r s'
                  end)
      | None =>
          match s with
          | [] => []
          | _ :: s' => findall_fuel n' r s'
          end
      end
  end.

Definition findall (r : regex) (s : str) : list (list str) :=
  findall_fuel (S (length s)) r s.

Definition any_char (_ : ascii) : bool := true.

Definition not_quote (c : ascii) : bool := negb (Ascii.eqb c "'").

(** [(\d{4}-\d{2}-\d{2} \d{2}:\d{2}:\d{2}\.\d{3})] *)
Definition timestamp_re : regex :=
  Cat [Rep 4 is_digit; Chr "-"; Rep 2 is_digit; Chr "-"; Rep 2 is_digit;
       Chr " "; Rep 2 is_digit; Chr ":"; Rep 2 is_digit; Chr ":";
       Rep 2 is_digit; Chr "."; Rep 3 is_digit].

(** The pattern of [_parse_single_file], compiled with [re.DOTALL], so that
    [.] is [any_char]. *)
Definition pattern : regex :=
  Cat [Group timestamp_re;
       LazyStar any_char;
       Lit $"SlowQuery: ";
       Group (Plus is_digit);
       Lit $" milliseconds. SQL: '";
       LazyStar any_char;
       Lit $"wrapping ";
       Group (Star not_quote);
       Chr "'"].

(** [kw1\s+kw2\s+...(\w+)] *)
Fixpoint keyword_re (kws : list str) : regex :=
  match kws with
  | [] => Group (Plus is_word)
  | kw :: kws' => Seq (Lit kw) (Seq (Plus is_space) (keyword_re kws'))
  end.

(** [from\s+(\w+)] *)
Definition from_re : regex := keyword_re [$"from"].
(** [insert\s+into\s+(\w+)] *)
Definition insert_re : regex := keyword_re [$"insert"; $"into"].
(** [update\s+(\w+)] *)
Definition update_re : regex := keyword_re [$"update"].
(** [delete\s+from\s+(\w+)] *)
Definition delete_re : regex := keyword_re [$"delete"; $"from"].

(* ================================================================= *)
(** ** Built-ins *)

Fixpoint digits_value (acc : Z) (s : str) : result Z :=
  match s with
  | [] => Ok acc
  | c :: s' =>
      if is_digit c
      then digits_value (10 * acc + Z.of_nat (code c - 48)) s'
      else Raise ValueError
  end.

(** [int(text)] on a run of decimal digits.  Anything else is a
    [ValueError] here (Python also reads a sign, blanks and underscores;
    the program never passes such text).  The result is unbounded, as the
    language defines it; the cap an interpreter may put on the number of
    digits ([sys.set_int_max_str_digits]) is not part of the model. *)
Definition py_int (s : str) : result Z :=
  match s with
  | [] => Raise ValueError
  | _ => digits_value 0 s
  end.

Definition py_sum (l : list Z) : Z := fold_left Z.add l 0.

(** [max] and [min] raise [ValueError] on an empty sequence. *)
Definition py_max (l : list Z) : result Z :=
  match l with
  | [] => Raise ValueError
  | x :: l' => Ok (fold_left Z.max l' x)
  end.

Definition py_min (l : list Z) : result Z :=
  match l with
  | [] => Raise ValueError
  | x :: l' => Ok (fold_left Z.min l' x)
  end.

(** [a / b] on ints: [ZeroDivisionError] for a zero divisor, else the
    exact quotient (see the conventions above). *)
Definition py_truediv (a b : Z) : result Q :=
  if b =? 0 then Raise ZeroDivisionError
  else Ok (inject_Z a / inject_Z b)%Q.

(** [l[0]] *)
Definition py_first {A} (l : list A) : result A :=
  match l with
  | [] => Raise IndexError
  | x :: _ => Ok x
  end.

(** [l[:k]]: a negative [k] counts from the end. *)
Definition py_slice_to {A} (k : Z) (l : list A) : list A :=
  if 0 <=? k then firstn (Z.to_nat k) l
  else firstn (length l - Z.to_nat (- k)) l.

(** [m.group(n)] for [n >= 1]. *)
Definition group (n : nat) (caps : list str) : str := nth (n - 1) caps [].

(** *** Dictionaries *)

Fixpoint dict_get {V} (k : str) (d : list (str * V)) : option V :=
  match d with
  | [] => None
  | (k', v) :: d' => if str_eqb k' k then Some v else dict_get k d'
  end.

(** [d[k] = v]: an existing key keeps its place. *)
Fixpoint dict_set {V} (k : str) (v : V) (d : list (str * V)) : list (str * V) :=
  match d with
  | [] => [(k, v)]
  | (k', v') :: d' =>
      if str_eqb k' k then (k', v) :: d' else (k', v') :: dict_set k v d'
  end.

(** [d[k].append(x)] on a [defaultdict(list)]. *)
Fixpoint dict_append {V} (k : str) (x : V) (d : list (str * list V))
  : list (str * list V) :=
  match d with
  | [] => [(k, [x])]
  | (k', l) :: d' =>
      if str_eqb k' k then (k', l ++ [x]) :: d' else (k', l) :: dict_append k x d'
  end.

(** *** [sort(key=..., reverse=True)]

    Python's sort is stable, also with [reverse=True]: entries with equal
    keys keep their order.  A stable sort is determined by that
    ([sort_desc_characterised]), so insertion from the right stands for
    it. *)
Section Sort.
Variables (A K : Type) (key : A -> K) (ltb : K -> K -> bool).

Fixpoint insert_desc (x : A) (l : list A) : list A :=
  match l with
  | [] => [x]
  | y :: l' => if ltb (key x) (key y) then y :: insert_desc x l' else x :: l
  end.

Fixpoint sort_desc (l : list A) : list A :=
  match l with
  | [] => []
  | x :: l' => insert_desc x (sort_desc l')
  end.
End Sort.

(** Order of the tuples [(hits, total_time)]. *)
Definition pair_ltb (a b : Z * Z) : bool :=
  ((fst a <? fst b) || ((fst a =? fst b) && (snd a <? snd b)))%bool.

(* ================================================================= *)
(** ** The analyzer *)

(** The dictionary [query_info]. *)
Record query_info := {
  timestamp : str;
  execution_time : Z;
  operation : str;
  table : str;
  query_type : str;
  query : str;
  query_preview : str;
  source_file : str
}.

(** An entry of [file_stats]. *)
Record file_stat := {
  fs_queries : nat;
  fs_file_size : nat;
  fs_basename : str
}.

(** The attributes of [SlowQueryAnalyzer].  [temp_files] stays empty
    throughout and is left out. *)
Record analyzer := {
  log_input : str;
  file_list : list str;
  queries : list query_info;
  query_groups : list (str * list query_info);
  file_stats : list (str * file_stat)
}.

Definition __init__ (log_input : str) : analyzer :=
  {| log_input := log_input; file_list := []; queries := [];
     query_groups := []; file_stats := [] |}.

Definition table_of (m : option (list str)) : str :=
  match m with
  | Some caps => group 1 caps
  | None => $"unknown"
  end.

Definition _extract_operation_and_table (query : str) : str * str :=
  let query_lower := lower query in
  if startswith $"select" query_lower then
    ($"SELECT", table_of (search from_re query_lower))
  else if startswith $"insert" query_lower then
    ($"INSERT", table_of (search insert_re query_lower))
  else if startswith $"update" query_lower then
    ($"UPDATE", table_of (search update_re query_lower))
  else if startswith $"delete" query_lower then
    ($"DELETE", table_of (search delete_re query_lower))
  else ($"OTHER", $"unknown").

Definition preview (query_clean : str) : str :=
  if Nat.ltb 200 (length query_clean)
  then firstn 200 query_clean ++ $"..."
  else query_clean.

(** The body of the loop of [_parse_single_file] up to the record. *)
Definition make_query_info (file_path : str) (m : list str) : result query_info :=
  let timestamp := group 1 m in
  let time_ms := group 2 m in
  let query := group 3 m in
  let query_clean := strip query in
  let '(operation, table) := _extract_operation_and_table query_clean in
  t <- py_int time_ms ;;
  Ok {| timestamp := timestamp;
        execution_time := t;
        operation := operation;
        table := table;
        query_type := operation ++ $" " ++ table;
        query := query_clean;
        query_preview := preview query_clean;
        source_file := basename file_path |}.

(** [self.queries.append(q); self.query_groups[q['query_type']].append(q)].
    Both lists receive the same dictionary; the program never assigns to a
    record once it is built, so a record is a value here and the two lists
    hold equal values. *)
Definition ingest (self : analyzer) (q : query_info) : analyzer :=
  {| log_input := log_input self;
     file_list := file_list self;
     queries := queries self ++ [q];
     query_groups := dict_append (query_type q) q (query_groups self);
     file_stats := file_stats self |}.

Fixpoint ingest_matches (self : analyzer) (file_path : str)
         (matches : list (list str)) (file_queries : nat)
  : result (analyzer * nat) :=
  match matches with
  | [] => Ok (self, file_queries)
  | m :: ms =>
      q <- make_query_info file_path m ;;
      ingest_matches (ingest self q) file_path ms (S file_queries)
  end.

Definition set_file_stats (self : analyzer) (file_path : str) (st : file_stat)
  : analyzer :=
  {| log_input := log_input self;
     file_list := file_list self;
     queries := queries self;
     query_groups := query_groups self;
     file_stats := dict_set file_path st (file_stats self) |}.

(** [_parse_single_file]; [content] is what [_read_file_content] returned
    for [file_path]. *)
Definition _parse_single_file (self : analyzer) (file_path content : str)
  : result (analyzer * nat) :=
  match content with
  | [] => Ok (self, 0%nat)
  | _ =>
      let matches := findall pattern content in
      match matches with
      | [] => Ok (self, 0%nat)
      | _ =>
          r <- ingest_matches self file_path matches 0 ;;
          let '(self', file_queries) := r in
          Ok (set_file_stats self' file_path
                {| fs_queries := file_queries;
                   fs_file_size := length content;
                   fs_basename := basename file_path |},
              file_queries)
      end
  end.

Fixpoint parse_files (self : analyzer) (files : list (str * str))
  : result analyzer :=
  match files with
  | [] => Ok self
  | (file_path, content) :: files' =>
      r <- _parse_single_file self file_path content ;;
      parse_files (fst r) files'
  end.

(** [parse_log_files]; [files] is the list [_find_repository_files]
    returned, each path with its decoded content. *)
Definition parse_log_files (self : analyzer) (files : list (str * str))
  : result analyzer :=
  parse_files
    {| log_input := log_input self;
       file_list := map fst files;
       queries := queries self;
       query_groups := query_groups self;
       file_stats := file_stats self |}
    files.

(** An entry of the lists [get_top_k_by_hits] and
    [get_top_k_by_total_time] return. *)
Record group_summary := {
  g_query_type : str;
  hits : Z;
  total_time : Z;
  avg_time : Q;
  max_time : Z;
  min_time : Z;
  sample_query : str;
  sample_timestamp : str
}.

Definition summarize (query_type : str) (query_list : list query_info)
  : result group_summary :=
  let times := map execution_time query_list in
  avg <- py_truediv (py_sum times) (Z.of_nat (length times)) ;;
  mx <- py_max times ;;
  mn <- py_min times ;;
  q0 <- py_first query_list ;;
  Ok {| g_query_type := query_type;
        hits := Z.of_nat (length query_list);
        total_time := py_sum times;
        avg_time := avg;
        max_time := mx;
        min_time := mn;
        sample_query := query_preview q0;
        sample_timestamp := timestamp q0 |}.

(** The loop over [self.query_groups.items()]. *)
Fixpoint summaries (groups : list (str * list query_info))
  : result (list group_summary) :=
  match groups with
  | [] => Ok []
  | (query_type, query_list) :: groups' =>
      g <- summarize query_type query_list ;;
      gs <- summaries groups' ;;
      Ok (g :: gs)
  end.

Definition hits_key (g : group_summary) : Z * Z := (hits g, total_time g).

Definition get_top_k_by_hits (self : analyzer) (k : Z)
  : result (list group_summary) :=
  results <- summaries (query_groups self) ;;
  Ok (py_slice_to k (sort_desc hits_key pair_ltb results)).

Definition get_top_k_by_time (self : analyzer) (k : Z) : list query_info :=
  py_slice_to k (sort_desc execution_time Z.ltb (queries self)).

Definition get_top_k_by_total_time (self : analyzer) (k : Z)
  : result (list group_summary) :=
  results <- summaries (query_groups self) ;;
  Ok (py_slice_to k (sort_desc total_time Z.ltb results)).

(** An entry of [source_files]. *)
Record source_entry := {
  se_queries : nat;
  se_file_size : nat
}.

(** The dictionary [get_statistics] returns when there are records. *)
Record statistics := {
  total_slow_queries : nat;
  unique_query_types : nat;
  files_processed : nat;
  source_files : list (str * source_entry);
  total_execution_time : Z;
  average_execution_time : Q;
  max_execution_time : Z;
  min_execution_time : Z;
  analysis_timestamp : str
}.

(** The body of the loop over [self.file_stats.items()]. *)
Definition add_source_file (source_files : list (str * source_entry))
           (item : str * file_stat) : list (str * source_entry) :=
  let stats := snd item in
  dict_set (fs_basename stats)
    {| se_queries := fs_queries stats; se_file_size := fs_file_size stats |}
    source_files.

Definition build_source_files (file_stats : list (str * file_stat))
  : list (str * source_entry) :=
  fold_left add_source_file file_stats [].

(** [get_statistics]; [None] is the empty dictionary, [now] is
    [datetime.now().isoformat()]. *)
Definition get_statistics (self : analyzer) (now : str)
  : result (option statistics) :=
  match queries self with
  | [] => Ok None
  | _ =>
      let times := map execution_time (queries self) in
      let files_processed := length (file_list self) in
      let source_files := build_source_files (file_stats self) in
      avg <- py_truediv (py_sum times) (Z.of_nat (length times)) ;;
      mx <- py_max times ;;
      mn <- py_min times ;;
      Ok (Some {| total_slow_queries := length (queries self);
                  unique_query_types := length (query_groups self);
                  files_processed := files_processed;
                  source_files := source_files;
                  total_execution_time := py_sum times;
                  average_execution_time := avg;
                  max_execution_time := mx;
                  min_execution_time := mn;
                  analysis_timestamp := now |})
  end.

(* ================================================================= *)
(** ** Finding and reading the files *)

(** What the program asks of the file system: [os.path.isfile],
    [os.path.isdir], [os.path.exists], [glob.glob], and the three ways of
    reading a text ([open], [gzip.open], [tarfile.open]); [None] stands
    for any exception the call raises. *)
Record tar_member := {
  tm_name : str;
  tm_isfile : bool;
  (** [tar.extractfile(m)] read and decoded: [Some None] when
      [extractfile] returns [None]. *)
  tm_extract : option (option str)
}.

Record file_system := {
  isfile : str -> bool;
  isdir : str -> bool;
  path_exists : str -> bool;
  glob : str -> list str;
  open_text : str -> option str;
  gzip_text : str -> option str;
  tar_members : str -> option (list tar_member)
}.

(** [s.endswith(suffix)] *)
Definition endswith (suffix s : str) : bool := startswith (rev suffix) (rev s).

(** [c in s] for a character *)
Definition has_char (c : ascii) (s : str) : bool := existsb (Ascii.eqb c) s.

(** [os.path.join(a, b)] (POSIX) *)
Definition path_join (a b : str) : str :=
  if startswith $"/" b then b
  else if (match a with [] => true | _ => false end || endswith $"/" a)%bool
       then a ++ b
       else a ++ $"/" ++ b.

(** [head.rstrip('/')] *)
Definition rstrip_slash (s : str) : str :=
  rev (drop_while (Ascii.eqb "/") (rev s)).

(** [p[:p.rfind('/') + 1]] *)
Fixpoint upto_last_slash (s : str) : str :=
  match s with
  | [] => []
  | c :: s' =>
      if has_char "/" s' then c :: upto_last_slash s'
      else if Ascii.eqb c "/" then [c] else []
  end.

(** [os.path.dirname] (POSIX) *)
Definition dirname (p : str) : str :=
  let head := upto_last_slash p in
  if forallb (Ascii.eqb "/") head then head else rstrip_slash head.

(** [a < b] on strings: by code points, a proper prefix first. *)
Fixpoint str_ltb (a b : str) : bool :=
  match a, b with
  | _, [] => false
  | [], _ :: _ => true
  | x :: a', y :: b' =>
      if Nat.ltb (code x) (code y) then true
      else if Nat.eqb (code x) (code y) then str_ltb a' b'
      else false
  end.

Fixpoint insert_uniq (x : str) (l : list str) : list str :=
  match l with
  | [] => [x]
  | y :: l' =>
      if str_ltb x y then x :: l
      else if str_eqb x y then l
      else y :: insert_uniq x l'
  end.

(** [sorted(list(set(files)))]: the distinct entries in ascending order.
    The order in which the set hands them over does not matter, a list
    being determined by its entries once it is strictly ascending
    ([sorted_set_characterised]). *)
Definition sorted_set (files : list str) : list str :=
  fold_right insert_uniq [] files.

Definition repository_patterns (dir : str) : list str :=
  [path_join dir $"repository*.log";
   path_join dir $"repository*.gz";
   path_join dir $"repository*.tar.gz";
   path_join dir $"repository*.tgz"].

(** The list [files] before it is sorted. *)
Definition candidate_files (fs : file_system) (input_path : str) : list str :=
  if isfile fs input_path then [input_path]
  else if isdir fs input_path then
    flat_map (glob fs) (repository_patterns input_path)
  else if (has_char "*" input_path || has_char "?" input_path)%bool then
    glob fs input_path
  else
    let base_dir := match dirname input_path with [] => $"." | d => d end in
    match flat_map (glob fs) (repository_patterns base_dir) with
    | [] => [input_path]
    | files => files
    end.

Definition _find_repository_files (fs : file_system) (input_path : str)
  : list str :=
  filter (path_exists fs) (sorted_set (candidate_files fs input_path)).

Definition or_empty (t : option str) : str :=
  match t with
  | Some text => text
  | None => []
  end.

Definition is_repository_log (m : tar_member) : bool :=
  (tm_isfile m && endswith $"repository.log" (tm_name m))%bool.

Definition _extract_from_tar_gz (fs : file_system) (tar_path : str) : str :=
  match tar_members fs tar_path with
  | None => []
  | Some members =>
      match filter is_repository_log members with
      | [] => []
      | log_member :: _ =>
          match tm_extract log_member with
          | Some (Some text) => text
          | Some None => []
          | None => []
          end
      end
  end.

Definition _read_file_content (fs : file_system) (file_path : str) : str :=
  if (endswith $".tar.gz" file_path || endswith $".tgz" file_path)%bool then
    _extract_from_tar_gz fs file_path
  else if endswith $".gz" file_path then or_empty (gzip_text fs file_path)
  else or_empty (open_text fs file_path).

(** [_parse_single_file] with the reading it starts with. *)
Definition parse_single_file_on (fs : file_system) (self : analyzer)
           (file_path : str) : result (analyzer * nat) :=
  _parse_single_file self file_path (_read_file_content fs file_path).



(* ================================================================= *)
(** ** Choosing what is shown *)

(** An element of the list [main] hands to a renderer: a record of
    [get_top_k_by_time] or a summary of the two other rankings. *)
Inductive item :=
| Record_item (q : query_info)
| Group_item (g : group_summary).

(** ['execution_time' in item]: the key of a record, of no summary. *)
Definition has_execution_time (i : item) : bool :=
  match i with
  | Record_item _ => true
  | Group_item _ => false
  end.

(** The test [sort_by == 'time' and 'execution_time' in data[0]] that
    [print_table_format], [print_detailed_format] and [export_to_csv]
    choose their layout with; [and] skips its right side when the left
    one is false. *)
Definition individual_layout (data : list item) (sort_by : str) : result bool :=
  if str_eqb sort_by $"time" then
    first <- py_first data ;;
    Ok (has_execution_time first)
  else Ok false.

(** The [data] that [main] selects for [args.sort_by]. *)
Definition select_data (self : analyzer) (sort_by : str) (top_k : Z)
  : result (list item) :=
  if str_eqb sort_by $"hits" then
    data <- get_top_k_by_hits self top_k ;;
    Ok (map Group_item data)
  else if str_eqb sort_by $"time" then
    Ok (map Record_item (get_top_k_by_time self top_k))
  else
    data <- get_top_k_by_total_time self top_k ;;
    Ok (map Group_item data).

(* ================================================================= *)
(** ** Vocabulary of the properties *)

(** [matches r w caps]: the text [w] belongs to the language of [r], its
    groups reading [caps]. *)
Inductive matches : regex -> str -> list str -> Prop :=
| M_Eps : matches Eps [] []
| M_Chr c : matches (Chr c) [c] []
| M_Class p c : p c = true -> matches (Class p) [c] []
| M_Seq r1 r2 w1 w2 c1 c2 :
    matches r1 w1 c1 -> matches r2 w2 c2 ->
    matches (Seq r1 r2) (w1 ++ w2) (c1 ++ c2)
| M_Star p w : forallb p w = true -> matches (Star p) w []
| M_LazyStar p w : forallb p w = true -> matches (LazyStar p) w []
| M_Group r w c : matches r w c -> matches (Group r) w (c ++ [w]).

Definition suffix_of (t s : str) : Prop := exists pre, s = pre ++ t.

Definition infix_of (m s : str) : Prop := exists pre post, s = pre ++ m ++ post.

(** [m in s] *)
Fixpoint contains (m s : str) : bool :=
  (startswith m s ||
   match s with
   | [] => false
   | _ :: s' => contains m s'
   end)%bool.

(** The shape [YYYY-MM-DD HH:MM:SS.mmm]. *)
Definition is_timestamp (ts : str) : bool :=
  match ts with
  | [y1; y2; y3; y4; d1; m1; m2; d2; a1; a2; b; h1; h2; c1; n1; n2; c2;
     s1; s2; dot; f1; f2; f3] =>
      forallb is_digit [y1; y2; y3; y4; m1; m2; a1; a2; h1; h2; n1; n2;
                        s1; s2; f1; f2; f3]
      && str_eqb [d1; d2; b; c1; c2; dot] $"-- ::."
  | _ => false
  end.

(** What [findall pattern content] can return: a timestamp, a run of
    digits taken after the marker, and the text between [wrapping ] and
    the next quote. *)
Definition wf_caps (content : str) (caps : list str) : Prop :=
  exists ts ms q,
    caps = [ts; ms; q] /\
    is_timestamp ts = true /\
    ms <> [] /\ forallb is_digit ms = true /\
    forallb not_quote q = true /\
    infix_of ($"SlowQuery: " ++ ms ++ $" milliseconds. SQL: '") content /\
    infix_of ($"wrapping " ++ q ++ $"'") content.

Fixpoint map_result {A B} (f : A -> result B) (l : list A) : result (list B) :=
  match l with
  | [] => Ok []
  | x :: l' =>
      y <- f x ;;
      ys <- map_result f l' ;;
      Ok (y :: ys)
  end.

(** The records one file contributes, in match order. *)
Definition extract_records (file_path content : str) : result (list query_info) :=
  map_result (make_query_info file_path) (findall pattern content).

Definition ingest_all (self : analyzer) (recs : list query_info) : analyzer :=
  fold_left ingest recs self.

(** The record built from the groups [ts], [ms], [q] of a match. *)
Definition built_from (file_path : str) (caps : list str) (r : query_info) : Prop :=
  timestamp r = group 1 caps /\
  py_int (group 2 caps) = Ok (execution_time r) /\
  0 <= execution_time r /\
  query r = strip (group 3 caps) /\
  (operation r, table r) = _extract_operation_and_table (query r) /\
  query_type r = operation r ++ $" " ++ table r /\
  query_preview r = preview (query r) /\
  source_file r = basename file_path.

(** The members of the group [k] among the records [l]. *)
Definition members (k : str) (l : list query_info) : list query_info :=
  filter (fun q => str_eqb (query_type q) k) l.

Definition nonempty_opt {A} (l : list A) : option (list A) :=
  match l with
  | [] => None
  | _ => Some l
  end.

(** [d] holds exactly the non-empty groups of [l], each in record order. *)
Definition grouped (l : list query_info) (d : list (str * list query_info)) : Prop :=
  NoDup (map fst d) /\
  forall k, dict_get k d = nonempty_opt (members k l).

(** The states an analyzer goes through: created by [__init__], then
    changed by [parse_log_files] and [_parse_single_file] only. *)
Inductive reachable : analyzer -> Prop :=
| reach_init li : reachable (__init__ li)
| reach_file self file_path content self' n :
    reachable self ->
    _parse_single_file self file_path content = Ok (self', n) ->
    reachable self'
| reach_list self files :
    reachable self ->
    reachable {| log_input := log_input self;
                 file_list := files;
                 queries := queries self;
                 query_groups := query_groups self;
                 file_stats := file_stats self |}.

(** [a] may stand before [b] in a descending list. *)
Definition not_below {A K} (key : A -> K) (ltb : K -> K -> bool) (a b : A) : Prop :=
  ltb (key a) (key b) = false.

Definition sum_list (l : list Z) : Z := fold_right Z.add 0 l.

Definition is_max (m : Z) (l : list Z) : Prop :=
  In m l /\ Forall (fun t => t <= m) l.

Definition is_min (m : Z) (l : list Z) : Prop :=
  In m l /\ Forall (fun t => m <= t) l.

(** What a summary says about the records [l] it was computed from. *)
Definition summary_of (l : list query_info) (s : group_summary) : Prop :=
  let group := members (g_query_type s) l in
  let times := map execution_time group in
  group <> [] /\
  hits s = Z.of_nat (length group) /\
  total_time s = sum_list times /\
  avg_time s = (inject_Z (total_time s) / inject_Z (hits s))%Q /\
  is_max (max_time s) times /\
  is_min (min_time s) times.

(** The identifier found when the keywords stand at the very start of
    [s], each followed by at least one blank: the maximal run of word
    characters after them, and the text left. *)
Fixpoint ident_after (kws : list str) (s : str) : option (str * str) :=
  match kws with
  | [] =>
      match take_while is_word s with
      | [] => None
      | id => Some (id, drop_while is_word s)
      end
  | kw :: kws' =>
      if startswith kw s then
        let s1 := skipn (length kw) s in
        match take_while is_space s1 with
        | [] => None
        | _ => ident_after kws' (drop_while is_space s1)
        end
      else None
  end.

(** The identifier of the leftmost place of [s] where [ident_after]
    finds one.  With [wb] the keywords must start at a word boundary:
    [prev_word] tells whether the character before [s] is a word
    character. *)
Fixpoint first_ident (wb : bool) (kws : list str) (prev_word : bool) (s : str)
  : option str :=
  match (if (wb && prev_word)%bool then None else ident_after kws s) with
  | Some (id, _) => Some id
  | None =>
      match s with
      | [] => None
      | c :: s' => first_ident wb kws (is_word c) s'
      end
  end.

Definition table_after (wb : bool) (kws : list str) (s : str) : str :=
  match first_ident wb kws false s with
  | Some id => id
  | None => $"unknown"
  end.

(** The classifier in the words of its description; [wb] says whether the
    keyword before the table has to start at a word boundary. *)
Definition classify (wb : bool) (q : str) : str * str :=
  let ql := lower q in
  if startswith $"select" ql then ($"SELECT", table_after wb [$"from"] ql)
  else if startswith $"insert" ql then
    ($"INSERT", table_after wb [$"insert"; $"into"] ql)
  else if startswith $"update" ql then ($"UPDATE", table_after wb [$"update"] ql)
  else if startswith $"delete" ql then
    ($"DELETE", table_after wb [$"delete"; $"from"] ql)
  else ($"OTHER", $"unknown").

(** A keyword that starts with a character other than a blank. *)
Definition nonspace_head (kw : str) : bool :=
  match kw with
  | c :: _ => negb (is_space c)
  | [] => false
  end.

(** The first character of [s] is in the class [p]. *)
Definition starts (p : ascii -> bool) (s : str) : bool :=
  match s with
  | c :: _ => p c
  | [] => false
  end.

(** [occurrence kws s id]: the text [s] begins with the keywords [kws],
    each followed by one or more blanks, and then with the identifier
    [id], a maximal run of word characters. *)
Inductive occurrence : list str -> str -> str -> Prop :=
| occ_ident id rest :
    id <> [] -> forallb is_word id = true -> starts is_word rest = false ->
    occurrence [] (id ++ rest) id
| occ_keyword kw kws ws s id :
    ws <> [] -> forallb is_space ws = true ->
    occurrence kws s id ->
    occurrence (kw :: kws) (kw ++ ws ++ s) id.

(** [id] is the identifier of the leftmost occurrence inside [s]. *)
Definition leftmost_occurrence (kws : list str) (s id : str) : Prop :=
  exists pre post,
    s = pre ++ post /\ occurrence kws post id /\
    forall pre' post' id',
      s = pre' ++ post' -> occurrence kws post' id' ->
      (length pre <= length pre')%nat.

Definition no_occurrence (kws : list str) (s : str) : Prop :=
  forall pre post id, s = pre ++ post -> ~ occurrence kws post id.

(** The keyword lists of the four patterns of the classifier. *)
Definition classifier_keywords : list (list str) :=
  [[$"from"]; [$"insert"; $"into"]; [$"update"]; [$"delete"; $"from"]].

(** The continuation of [match_at]: the pattern is over. *)
Definition final : str -> list str -> option (list str * str) :=
  fun s' caps => Some (caps, s').

Definition operations : list str :=
  [$"SELECT"; $"INSERT"; $"UPDATE"; $"DELETE"; $"OTHER"].

(** A character of a lower-cased identifier: [a-z0-9_]. *)
Definition is_ident_char (c : ascii) : bool :=
  (is_lower c || is_digit c || Nat.eqb (code c) 95)%bool.

Definition lower_identifier (t : str) : Prop :=
  t <> [] /\ forallb is_ident_char t = true.

Definition wf_record (r : query_info) : Prop :=
  query_type r = operation r ++ $" " ++ table r /\
  In (operation r) operations /\
  (table r = $"unknown" \/ lower_identifier (table r)).

(** The number of entries [_parse_single_file] finds in a content. *)
Definition count_of (content : str) : nat := length (findall pattern content).

Definition stat_of (file_path content : str) : file_stat :=
  {| fs_queries := count_of content;
     fs_file_size := length content;
     fs_basename := basename file_path |}.

(** The entries of [file_stats] after a run over [files]: one for each
    file with at least one entry, in processing order. *)
Fixpoint stats_of (files : list (str * str)) : list (str * file_stat) :=
  match files with
  | [] => []
  | (p, c) :: files' =>
      if Nat.eqb (count_of c) 0 then stats_of files'
      else (p, stat_of p c) :: stats_of files'
  end.

Fixpoint total_count (files : list (str * str)) : nat :=
  match files with
  | [] => 0
  | (_, c) :: files' => count_of c + total_count files'
  end.

Definition entry_of (st : file_stat) : source_entry :=
  {| se_queries := fs_queries st; se_file_size := fs_file_size st |}.

Definition last_entry (b : str) (o : option source_entry) (item : str * file_stat)
  : option source_entry :=
  if str_eqb (fs_basename (snd item)) b then Some (entry_of (snd item)) else o.

(** Descending order of the pairs [(hits, total_time)]. *)
Definition hits_order (a b : group_summary) : Prop :=
  hits a > hits b \/ (hits a = hits b /\ total_time a >= total_time b).

Definition total_time_order (a b : group_summary) : Prop :=
  total_time a >= total_time b.

Definition time_order (a b : query_info) : Prop :=
  execution_time a >= execution_time b.

Definition has_time (t : Z) (q : query_info) : bool := execution_time q =? t.

(** The length of [l[:k]] for a list of [n] entries. *)
Definition slice_length (k : Z) (n len : nat) : Prop :=
  (0 <= k -> Z.of_nat len = Z.min k (Z.of_nat n)) /\
  (k < 0 -> Z.of_nat len = Z.max 0 (Z.of_nat n + k)).

(* ================================================================= *)
(** ** Sample inputs *)

Definition nl : str := ["010"%char].

(** The log line of the extractor's boundary example. *)
Definition example_line : str :=
  $"2024-01-01 10:00:00.123 ... SlowQuery: 1500 milliseconds. SQL: 'exec wrapping select * from foo'".

(** One entry spread over three physical lines. *)
Definition wrapped_entry : str :=
  $"2024-01-01 10:00:02.500 INFO" ++ nl ++
  $"  SlowQuery: 1500 milliseconds. SQL: 'HikariProxy" ++ nl ++
  $" wrapping SELECT id FROM foo WHERE x = 2'" ++ nl.

(** Three entries, two query types, two equal times. *)
Definition sample_log : str :=
  $"2024-01-01 10:00:00.123 INFO SlowQuery: 1500 milliseconds. SQL: 'exec wrapping select * from foo'"
  ++ nl ++
  $"2024-01-01 10:00:01.000 INFO SlowQuery: 300 milliseconds. SQL: 'exec wrapping update Bar set a = 1'"
  ++ nl ++ wrapped_entry.

(** An entry whose fragment has blanks at both ends. *)
Definition padded_entry : str :=
  $"2024-01-01 10:00:00.123 SlowQuery: 5 milliseconds. SQL: 'x wrapping  select 1 '".

(** A content without any entry. *)
Definition quiet_log : str := $"2024-01-01 10:00:00.123 INFO nothing slow here".

Definition sample_files : list (str * str) :=
  [($"logs/repository.log", sample_log)].

Definition sample_state : analyzer :=
  Eval vm_compute in
    match parse_log_files (__init__ $"logs") sample_files with
    | Ok self => self
    | Raise _ => __init__ $"logs"
    end.

(* ================================================================= *)
(** ** Vocabulary of the further properties *)

(** [ks] with [k] appended unless it is there already. *)
Definition add_key (ks : list str) (k : str) : list str :=
  if existsb (str_eqb k) ks then ks else ks ++ [k].

(** The distinct entries of [l] in the order of their first occurrence. *)
Definition first_seen (l : list str) : list str := fold_left add_key l [].

(** The records one file contributes ([extract_records] never raises). *)
Definition file_records (file_path content : str) : list query_info :=
  match extract_records file_path content with
  | Ok recs => recs
  | Raise _ => []
  end.

(** The summary [s] shows the earliest record of its group among [l]. *)
Definition sample_is_first (l : list query_info) (s : group_summary) : Prop :=
  exists before q after,
    l = before ++ q :: after /\
    query_type q = g_query_type s /\
    Forall (fun r => query_type r <> g_query_type s) before /\
    sample_query s = query_preview q /\
    sample_timestamp s = timestamp q.

(** [k] is no truncation for [n] entries. *)
Definition covers (k : Z) (n : nat) : Prop := Z.of_nat n <= k.

(** Summaries with the same [(hits, total_time)], with the same
    [total_time]. *)
Definition same_hits_total (h t : Z) (g : group_summary) : bool :=
  ((hits g =? h) && (total_time g =? t))%bool.

Definition same_total (t : Z) (g : group_summary) : bool := total_time g =? t.


(** What every ingested record looks like. *)
Definition record_shape (r : query_info) : Prop :=
  is_timestamp (timestamp r) = true /\
  0 <= execution_time r /\
  forallb not_quote (query r) = true /\
  starts is_space (query r) = false /\
  starts is_space (rev (query r)) = false /\
  (operation r, table r) = _extract_operation_and_table (query r) /\
  query_preview r = preview (query r) /\
  (length (query_preview r) <= 203)%nat.

(** The records of a list of files, file after file. *)
Definition run_records (files : list (str * str)) : list query_info :=
  flat_map (fun pc => file_records (fst pc) (snd pc)) files.

(** The base names of the files that have at least one entry. *)
Definition matching_basenames (files : list (str * str)) : list str :=
  map (fun pc => basename (fst pc))
    (filter (fun pc => negb (Nat.eqb (count_of (snd pc)) 0)) files).

(** What one file does to [file_stats]. *)
Definition record_stat (d : list (str * file_stat)) (pc : str * str)
  : list (str * file_stat) :=
  if Nat.eqb (count_of (snd pc)) 0 then d
  else dict_set (fst pc) (stat_of (fst pc) (snd pc)) d.

Definition str_lt (a b : str) : Prop := str_ltb a b = true.


(** The directory the fallback of [_find_repository_files] searches. *)
Definition fallback_dir (input_path : str) : str :=
  match dirname input_path with
  | [] => $"."
  | d => d
  end.

Definition no_wildcard (input_path : str) : bool :=
  negb (has_char "*" input_path || has_char "?" input_path).

(** A directory [logs] with two logs; the second has one entry. *)
Definition sample_fs : file_system :=
  {| isfile := fun p =>
       (str_eqb p $"logs/repository.log" || str_eqb p $"logs/repository.1.log")%bool;
     isdir := fun p => str_eqb p $"logs";
     path_exists := fun p =>
       (str_eqb p $"logs" || str_eqb p $"logs/repository.log"
        || str_eqb p $"logs/repository.1.log")%bool;
     glob := fun pattern =>
       if str_eqb pattern $"logs/repository*.log"
       then [$"logs/repository.log"; $"logs/repository.1.log"]
       else [];
     open_text := fun p =>
       if str_eqb p $"logs/repository.log" then Some sample_log
       else if str_eqb p $"logs/repository.1.log" then Some example_line
       else None;
     gzip_text := fun _ => None;
     tar_members := fun p =>
       if str_eqb p $"logs/old.tar.gz"
       then Some [ {| tm_name := $"notes.txt"; tm_isfile := true;
                      tm_extract := Some (Some quiet_log) |};
                   {| tm_name := $"var/repository.log"; tm_isfile := true;
                      tm_extract := Some (Some example_line) |};
                   {| tm_name := $"var/old-repository.log"; tm_isfile := true;
                      tm_extract := Some (Some sample_log) |} ]
       else None |}.

(* ================================================================= *)
(** ** The matcher is sound *)

Lemma str_eqb_eq a b : str_eqb a b = true <-> a = b.
Proof.
  unfold str_eqb. destruct (list_eq_dec ascii_dec a b); split; auto; discriminate.
Qed.

Lemma str_eqb_refl a : str_eqb a a = true.
Proof. apply str_eqb_eq. reflexivity. Qed.

Lemma str_eqb_neq a b : str_eqb a b = false <-> a <> b.
Proof.
  unfold str_eqb. destruct (list_eq_dec ascii_dec a b); split; auto;
    try discriminate. contradiction.
Qed.

Lemma startswith_app m : forall s,
  startswith m s = true <-> exists post, s = m ++ post.
Proof.
  induction m as [|a m IH]; intros s; simpl.
  - split; eauto.
  - destruct s as [|b s].
    + split; [discriminate|]. intros [post H]. discriminate.
    + rewrite andb_true_iff, Ascii.eqb_eq, IH. split.
      * intros [-> [post ->]]. eauto.
      * intros [post H]. inversion H; subst. eauto.
Qed.

Lemma firstn_app_exact (w s' : str) :
  firstn (length (w ++ s') - length s') (w ++ s') = w.
Proof.
  rewrite length_app.
  replace (length w + length s' - length s')%nat with (length w + 0)%nat by lia.
  rewrite firstn_app_2. simpl. apply app_nil_r.
Qed.

Lemma rmatch_sound A (r : regex) :
  forall s caps (k : str -> list str -> option A) a,
    rmatch r s caps k = Some a ->
    exists w s' c, s = w ++ s' /\ matches r w c /\ k s' (caps ++ c) = Some a.
Proof.
  induction r; intros s caps k a H; simpl in H.
  - exists [], s, []. rewrite app_nil_r. repeat split; auto. constructor.
  - destruct s as [|x s']; [discriminate|].
    destruct (Ascii.eqb x c) eqn:E; [|discriminate].
    apply Ascii.eqb_eq in E. subst x.
    exists [c], s', []. rewrite app_nil_r. repeat split; auto. constructor.
  - destruct s as [|x s']; [discriminate|].
    destruct (p x) eqn:E; [|discriminate].
    exists [x], s', []. rewrite app_nil_r. repeat split; auto. constructor; auto.
  - apply IHr1 in H. destruct H as (w1 & s1 & c1 & -> & M1 & H).
    apply IHr2 in H. destruct H as (w2 & s2 & c2 & -> & M2 & H).
    exists (w1 ++ w2), s2, (c1 ++ c2).
    rewrite <- !app_assoc. rewrite <- app_assoc in H.
    repeat split; auto. constructor; auto.
  - assert (Here : forall t, k t caps = Some a ->
              exists w s' c, t = w ++ s' /\ matches (Star p) w c /\
                             k s' (caps ++ c) = Some a).
    { intros t K. exists [], t, []. rewrite app_nil_r.
      repeat split; auto. constructor; auto. }
    revert H. induction s as [|x s' IH]; intros H; [auto|].
    destruct (p x) eqn:E; [|auto].
    match type of H with
    | match ?g with _ => _ end = _ => destruct g eqn:G
    end; [|auto].
    destruct (IH H) as (w & t & c & -> & M & G').
    inversion M; subst.
    exists (x :: w), t, []. repeat split; auto.
    constructor. simpl. rewrite E. auto.
  - assert (Here : forall t, k t caps = Some a ->
              exists w s' c, t = w ++ s' /\ matches (LazyStar p) w c /\
                             k s' (caps ++ c) = Some a).
    { intros t K. exists [], t, []. rewrite app_nil_r.
      repeat split; auto. constructor; auto. }
    revert H. induction s as [|x s' IH]; intros H.
    + destruct (k [] caps) eqn:K; [|discriminate].
      apply Here. congruence.
    + destruct (k (x :: s') caps) eqn:K.
      * apply Here. congruence.
      * destruct (p x) eqn:E; [|discriminate].
        apply IH in H. destruct H as (w & t & c & -> & M & G).
        inversion M; subst.
        exists (x :: w), t, []. repeat split; auto.
        constructor. simpl. rewrite E. auto.
  - apply IHr in H. destruct H as (w & s' & c & -> & M & H).
    rewrite firstn_app_exact in H.
    exists w, s', (c ++ [w]). rewrite app_assoc.
    repeat split; auto. constructor; auto.
Qed.

Lemma match_at_sound r s caps rest :
  match_at r s = Some (caps, rest) ->
  exists w, s = w ++ rest /\ matches r w caps.
Proof.
  unfold match_at. intros H. apply rmatch_sound in H.
  destruct H as (w & s' & c & -> & M & H). simpl in H.
  inversion H; subst. eauto.
Qed.

(** *** The matcher finds a match whenever there is one *)

Lemma rmatch_complete A (r : regex) w c :
  matches r w c ->
  forall rest caps (k : str -> list str -> option A),
    k rest (caps ++ c) <> None -> rmatch r (w ++ rest) caps k <> None.
Proof.
  induction 1 as [|a|p a Pa|r1 r2 w1 w2 c1 c2 M1 IH1 M2 IH2|p w F|p w F|r w c M IH];
    intros rest caps k H.
  - simpl. rewrite app_nil_r in H. exact H.
  - simpl. rewrite Ascii.eqb_refl. rewrite app_nil_r in H. exact H.
  - simpl. rewrite Pa. rewrite app_nil_r in H. exact H.
  - simpl. rewrite <- app_assoc. apply IH1. apply IH2.
    rewrite <- app_assoc. exact H.
  - rewrite app_nil_r in H. simpl. induction w as [|x w IHw]; simpl.
    + destruct rest as [|y t]; [exact H|].
      destruct (p y); [|exact H].
      match goal with
      | |- match ?g with _ => _ end <> None => destruct g; [discriminate|exact H]
      end.
    + simpl in F. apply andb_prop in F. destruct F as [-> F].
      match goal with
      | |- match ?g with _ => _ end <> None =>
          destruct g eqn:G; [discriminate|]
      end.
      exfalso. apply (IHw F). reflexivity.
  - rewrite app_nil_r in H. simpl. induction w as [|x w IHw]; simpl.
    + destruct rest as [|y t].
      * destruct (k [] caps); [discriminate|congruence].
      * destruct (k (y :: t) caps); [discriminate|congruence].
    + simpl in F. apply andb_prop in F. destruct F as [-> F].
      destruct (k (x :: w ++ rest) caps); [discriminate|]. apply IHw, F.
  - simpl. apply IH. rewrite firstn_app_exact, <- app_assoc. exact H.
Qed.

Lemma match_at_complete r w c rest :
  matches r w c -> match_at r (w ++ rest) <> None.
Proof.
  intros M. unfold match_at. eapply rmatch_complete; [exact M|discriminate].
Qed.

(** *** The scan of [findall] *)

Lemma findall_fuel_enough r : forall n m s,
  (length s < n)%nat -> (length s < m)%nat ->
  findall_fuel n r s = findall_fuel m r s.
Proof.
  induction n as [|n IH]; intros m s Hn Hm; [lia|].
  destruct m as [|m]; [lia|]. simpl.
  destruct (match_at r s) as [[caps rest]|].
  - f_equal. destruct (Nat.ltb (length rest) (length s)) eqn:E.
    + apply Nat.ltb_lt in E. apply IH; lia.
    + destruct s; auto. simpl in *. apply IH; lia.
  - destruct s; auto. simpl in *. apply IH; lia.
Qed.

Lemma findall_eq r s :
  findall r s =
  match match_at r s with
  | Some (caps, rest) =>
      caps ::
        (if Nat.ltb (length rest) (length s) then findall r rest
         else match s with [] => [] | _ :: s' => findall r s' end)
  | None => match s with [] => [] | _ :: s' => findall r s' end
  end.
Proof.
  unfold findall at 1. simpl.
  destruct (match_at r s) as [[caps rest]|].
  - f_equal. destruct (Nat.ltb (length rest) (length s)) eqn:E.
    + apply Nat.ltb_lt in E. apply findall_fuel_enough; lia.
    + destruct s; auto.
  - destruct s; auto.
Qed.

Lemma suffix_of_refl s : suffix_of s s.
Proof. exists []. reflexivity. Qed.

Lemma suffix_of_trans a b c : suffix_of a b -> suffix_of b c -> suffix_of a c.
Proof. intros [p ->] [q ->]. exists (q ++ p). apply app_assoc. Qed.

(** Whatever holds of every anchored match inside [s] holds of every entry
    of [findall]. *)
Lemma findall_Forall r (P : list str -> Prop) : forall s,
  (forall t caps rest,
      suffix_of t s -> match_at r t = Some (caps, rest) -> P caps) ->
  Forall P (findall r s).
Proof.
  intros s. remember (length s) as n eqn:Hn.
  revert s Hn. induction n as [n IH] using lt_wf_ind. intros s Hn H.
  rewrite findall_eq.
  assert (Htail : forall c s', s = c :: s' -> Forall P (findall r s')).
  { intros c s' ->. apply (IH (length s')); simpl in *; try lia.
    intros t caps rest [pre ->]. apply H. exists (c :: pre). reflexivity. }
  destruct (match_at r s) as [[caps rest]|] eqn:M.
  - constructor.
    + eapply H; [apply suffix_of_refl|exact M].
    + destruct (Nat.ltb (length rest) (length s)) eqn:E.
      * apply Nat.ltb_lt in E. apply (IH (length rest)); try lia.
        intros t caps' rest' Ht. apply H.
        eapply suffix_of_trans; [exact Ht|].
        apply match_at_sound in M. destruct M as (w & -> & _). exists w; auto.
      * destruct s; [constructor|]. eapply Htail; eauto.
  - destruct s; [constructor|]. eapply Htail; eauto.
Qed.

(** *** Reading a match of the patterns *)

Lemma matches_Seq_inv r1 r2 w c :
  matches (Seq r1 r2) w c ->
  exists w1 w2 c1 c2,
    w = w1 ++ w2 /\ c = c1 ++ c2 /\ matches r1 w1 c1 /\ matches r2 w2 c2.
Proof. intros H. inversion H; subst. do 4 eexists. eauto. Qed.

Lemma matches_Chr_inv a w c : matches (Chr a) w c -> w = [a] /\ c = [].
Proof. intros H. inversion H; subst. auto. Qed.

Lemma matches_Class_inv p w c :
  matches (Class p) w c -> exists a, w = [a] /\ p a = true /\ c = [].
Proof. intros H. inversion H; subst. eauto. Qed.

Lemma matches_Star_inv p w c :
  matches (Star p) w c -> forallb p w = true /\ c = [].
Proof. intros H. inversion H; subst. auto. Qed.

Lemma matches_LazyStar_inv p w c :
  matches (LazyStar p) w c -> forallb p w = true /\ c = [].
Proof. intros H. inversion H; subst. auto. Qed.

Lemma matches_Group_inv r w c :
  matches (Group r) w c -> exists c', c = c' ++ [w] /\ matches r w c'.
Proof. intros H. inversion H; subst. eauto. Qed.

Lemma matches_Eps_inv w c : matches Eps w c -> w = [] /\ c = [].
Proof. intros H. inversion H; subst. auto. Qed.

Lemma matches_Lit_inv s : forall w c, matches (Lit s) w c -> w = s /\ c = [].
Proof.
  induction s as [|a s IH]; simpl; intros w c H.
  - apply matches_Eps_inv in H. exact H.
  - apply matches_Seq_inv in H.
    destruct H as (w1 & w2 & c1 & c2 & -> & -> & H1 & H2).
    apply matches_Chr_inv in H1. destruct H1 as [-> ->].
    apply IH in H2. destruct H2 as [-> ->]. auto.
Qed.

Lemma matches_Rep_inv p n : forall w c,
  matches (Rep n p) w c -> length w = n /\ forallb p w = true /\ c = [].
Proof.
  induction n as [|n IH]; simpl; intros w c H.
  - apply matches_Eps_inv in H. destruct H as [-> ->]. auto.
  - apply matches_Seq_inv in H.
    destruct H as (w1 & w2 & c1 & c2 & -> & -> & H1 & H2).
    apply matches_Class_inv in H1. destruct H1 as (a & -> & Pa & ->).
    apply IH in H2. destruct H2 as (L & F & ->).
    simpl. rewrite Pa, F, L. auto.
Qed.

Lemma matches_Plus_inv p w c :
  matches (Plus p) w c -> w <> [] /\ forallb p w = true /\ c = [].
Proof.
  unfold Plus. intros H. apply matches_Seq_inv in H.
  destruct H as (w1 & w2 & c1 & c2 & -> & -> & H1 & H2).
  apply matches_Class_inv in H1. destruct H1 as (a & -> & Pa & ->).
  apply matches_Star_inv in H2. destruct H2 as [F ->].
  simpl. rewrite Pa, F. repeat split; auto. discriminate.
Qed.

Ltac split_seq H :=
  let w1 := fresh "w" in
  let w2 := fresh "w" in
  let c1 := fresh "c" in
  let c2 := fresh "c" in
  let H1 := fresh "M" in
  apply matches_Seq_inv in H;
  destruct H as (w1 & w2 & c1 & c2 & -> & -> & H1 & H).

Lemma rep2_inv p w c :
  matches (Rep 2 p) w c ->
  exists a b, w = [a; b] /\ p a = true /\ p b = true /\ c = [].
Proof.
  intros H. apply matches_Rep_inv in H. destruct H as (L & F & ->).
  destruct w as [|a [|b [|? ?]]]; try discriminate.
  simpl in F. apply andb_prop in F. destruct F as [Fa F].
  apply andb_prop in F. destruct F as [Fb _]. eauto 6.
Qed.

Lemma rep3_inv p w c :
  matches (Rep 3 p) w c ->
  exists a b d, w = [a; b; d] /\ forallb p [a; b; d] = true /\ c = [].
Proof.
  intros H. apply matches_Rep_inv in H. destruct H as (L & F & ->).
  destruct w as [|a [|b [|d [|? ?]]]]; try discriminate. eauto 6.
Qed.

Lemma rep4_inv p w c :
  matches (Rep 4 p) w c ->
  exists a b d e, w = [a; b; d; e] /\ forallb p [a; b; d; e] = true /\ c = [].
Proof.
  intros H. apply matches_Rep_inv in H. destruct H as (L & F & ->).
  destruct w as [|a [|b [|d [|e [|? ?]]]]]; try discriminate. eauto 7.
Qed.

Lemma timestamp_re_inv w c :
  matches timestamp_re w c -> is_timestamp w = true /\ c = [].
Proof.
  unfold timestamp_re, Cat. intros H.
  split_seq H. apply rep4_inv in M.
  destruct M as (? & ? & ? & ? & -> & F4 & ->).
  split_seq H. apply matches_Chr_inv in M. destruct M as [-> ->].
  split_seq H. apply rep2_inv in M. destruct M as (? & ? & -> & ? & ? & ->).
  split_seq H. apply matches_Chr_inv in M. destruct M as [-> ->].
  split_seq H. apply rep2_inv in M. destruct M as (? & ? & -> & ? & ? & ->).
  split_seq H. apply matches_Chr_inv in M. destruct M as [-> ->].
  split_seq H. apply rep2_inv in M. destruct M as (? & ? & -> & ? & ? & ->).
  split_seq H. apply matches_Chr_inv in M. destruct M as [-> ->].
  split_seq H. apply rep2_inv in M. destruct M as (? & ? & -> & ? & ? & ->).
  split_seq H. apply matches_Chr_inv in M. destruct M as [-> ->].
  split_seq H. apply rep2_inv in M. destruct M as (? & ? & -> & ? & ? & ->).
  split_seq H. apply matches_Chr_inv in M. destruct M as [-> ->].
  split_seq H. apply rep3_inv in M.
  destruct M as (? & ? & ? & -> & F3 & ->).
  apply matches_Eps_inv in H. destruct H as [-> ->].
  split; [|reflexivity].
  simpl in F4, F3 |- *.
  repeat match goal with
         | H : (_ && _)%bool = true |- _ => apply andb_prop in H; destruct H
         end.
  repeat match goal with
         | H : is_digit _ = true |- _ => rewrite H; clear H
         end.
  reflexivity.
Qed.

(** A match of [pattern]: the timestamp, any text, the marker with the
    digits, any text, [wrapping ], the fragment up to the quote. *)
Lemma pattern_inv w caps :
  matches pattern w caps ->
  exists ts mid1 ms mid2 q,
    w = ts ++ mid1 ++ $"SlowQuery: " ++ ms ++ $" milliseconds. SQL: '"
           ++ mid2 ++ $"wrapping " ++ q ++ $"'" /\
    caps = [ts; ms; q] /\
    is_timestamp ts = true /\
    ms <> [] /\ forallb is_digit ms = true /\
    forallb not_quote q = true.
Proof.
  unfold pattern. unfold Cat. intros H.
  split_seq H. apply matches_Group_inv in M. destruct M as (c' & -> & M).
  apply timestamp_re_inv in M. destruct M as [T ->].
  split_seq H. apply matches_LazyStar_inv in M. destruct M as [_ ->].
  split_seq H. apply matches_Lit_inv in M. destruct M as [-> ->].
  split_seq H. apply matches_Group_inv in M. destruct M as (c' & -> & M).
  apply matches_Plus_inv in M. destruct M as (N & D & ->).
  split_seq H. apply matches_Lit_inv in M. destruct M as [-> ->].
  split_seq H. apply matches_LazyStar_inv in M. destruct M as [_ ->].
  split_seq H. apply matches_Lit_inv in M. destruct M as [-> ->].
  split_seq H. apply matches_Group_inv in M. destruct M as (c' & -> & M).
  apply matches_Star_inv in M. destruct M as [Q ->].
  split_seq H. apply matches_Chr_inv in M. destruct M as [-> ->].
  apply matches_Eps_inv in H. destruct H as [-> ->].
  do 5 eexists. repeat split; eauto.
Qed.

(** *** Building a match of the patterns *)

Lemma matches_Seq_intro r1 r2 w w1 w2 c c1 c2 :
  w = w1 ++ w2 -> matches r1 w1 c1 -> matches r2 w2 c2 -> c = c1 ++ c2 ->
  matches (Seq r1 r2) w c.
Proof. intros -> M1 M2 ->. constructor; assumption. Qed.

Lemma matches_Lit_intro s : matches (Lit s) s [].
Proof.
  induction s as [|a s IH]; simpl; [constructor|].
  apply (M_Seq (M_Chr a) IH).
Qed.

Lemma matches_Rep_intro p : forall w,
  forallb p w = true -> matches (Rep (length w) p) w [].
Proof.
  induction w as [|a w IH]; simpl; intros F; [constructor|].
  apply andb_prop in F. destruct F as [Fa F].
  apply (M_Seq (M_Class p a Fa) (IH F)).
Qed.

Lemma matches_Plus_intro p w :
  w <> [] -> forallb p w = true -> matches (Plus p) w [].
Proof.
  destruct w as [|a w]; [congruence|]. intros _ F. simpl in F.
  apply andb_prop in F. destruct F as [Fa F].
  apply (M_Seq (M_Class p a Fa) (M_Star p w F)).
Qed.

Lemma forallb_any_char w : forallb any_char w = true.
Proof. induction w; simpl; auto. Qed.

Ltac seq_step tac :=
  eapply matches_Seq_intro; [reflexivity | tac | | reflexivity].

Ltac digits_known :=
  cbn [forallb];
  repeat match goal with
         | H : is_digit ?x = true |- context [is_digit ?x] => rewrite H
         end;
  reflexivity.

Lemma timestamp_re_intro ts :
  is_timestamp ts = true -> matches timestamp_re ts [].
Proof.
  unfold is_timestamp. intros H.
  do 23 (destruct ts as [|? ts]; [discriminate|]).
  destruct ts; [|discriminate].
  apply andb_prop in H. destruct H as [D E].
  apply str_eqb_eq in E. inversion E; subst; clear E.
  cbn [forallb] in D.
  repeat match goal with
         | H : (_ && _)%bool = true |- _ => apply andb_prop in H; destruct H
         end.
  unfold timestamp_re, Cat.
  match goal with
  | |- matches _ [?y1; ?y2; ?y3; ?y4; _; ?m1; ?m2; _; ?a1; ?a2; _; ?h1; ?h2; _;
                  ?n1; ?n2; _; ?s1; ?s2; _; ?f1; ?f2; ?f3] _ =>
      change (matches
                (Seq (Rep 4 is_digit) (Seq (Chr "-") (Seq (Rep 2 is_digit)
                (Seq (Chr "-") (Seq (Rep 2 is_digit) (Seq (Chr " ")
                (Seq (Rep 2 is_digit) (Seq (Chr ":") (Seq (Rep 2 is_digit)
                (Seq (Chr ":") (Seq (Rep 2 is_digit) (Seq (Chr ".")
                (Seq (Rep 3 is_digit) Eps)))))))))))))
                ([y1; y2; y3; y4] ++ ["-"%char] ++ [m1; m2] ++ ["-"%char] ++
                 [a1; a2] ++ [" "%char] ++ [h1; h2] ++ [":"%char] ++ [n1; n2] ++
                 [":"%char] ++ [s1; s2] ++ ["."%char] ++ [f1; f2; f3] ++ [])
                [])
  end.
  repeat first
    [ apply M_Eps
    | seq_step ltac:(first
        [ apply M_Chr
        | apply (@matches_Rep_intro is_digit [_; _]); digits_known
        | apply (@matches_Rep_intro is_digit [_; _; _]); digits_known
        | apply (@matches_Rep_intro is_digit [_; _; _; _]); digits_known ]) ].
Qed.

Lemma pattern_intro ts mid1 ms mid2 q :
  is_timestamp ts = true ->
  ms <> [] -> forallb is_digit ms = true ->
  forallb not_quote q = true ->
  matches pattern
    (ts ++ mid1 ++ $"SlowQuery: " ++ ms ++ $" milliseconds. SQL: '"
        ++ mid2 ++ $"wrapping " ++ q ++ $"'")
    [ts; ms; q].
Proof.
  intros T N D Q. unfold pattern, Cat.
  change $"'" with (["'"%char] ++ @nil ascii).
  seq_step ltac:(apply (M_Group (@timestamp_re_intro ts T))).
  seq_step ltac:(apply M_LazyStar, forallb_any_char).
  seq_step ltac:(apply matches_Lit_intro).
  seq_step ltac:(apply (M_Group (@matches_Plus_intro is_digit ms N D))).
  seq_step ltac:(apply matches_Lit_intro).
  seq_step ltac:(apply M_LazyStar, forallb_any_char).
  seq_step ltac:(apply matches_Lit_intro).
  seq_step ltac:(apply (M_Group (M_Star not_quote q Q))).
  seq_step ltac:(apply (M_Chr "'")).
  apply M_Eps.
Qed.

Lemma findall_nonempty r : forall pre s,
  match_at r s <> None -> findall r (pre ++ s) <> [].
Proof.
  induction pre as [|c pre IH]; intros s H; rewrite findall_eq.
  - simpl app. destruct (match_at r s) as [[caps rest]|]; [discriminate|congruence].
  - destruct (match_at r ((c :: pre) ++ s)) as [[caps rest]|]; [discriminate|].
    apply IH, H.
Qed.

(* ================================================================= *)
(** ** Extraction *)

Lemma findall_pattern_wf content :
  Forall (wf_caps content) (findall pattern content).
Proof.
  apply findall_Forall. intros t caps rest [pre ->] M.
  apply match_at_sound in M. destruct M as (w & -> & M).
  apply pattern_inv in M.
  destruct M as (ts & mid1 & ms & mid2 & q & -> & -> & T & N & D & Q).
  exists ts, ms, q. repeat split; auto.
  - exists (pre ++ ts ++ mid1),
      (mid2 ++ $"wrapping " ++ q ++ $"'" ++ rest).
    repeat rewrite <- app_assoc. reflexivity.
  - exists (pre ++ ts ++ mid1 ++ $"SlowQuery: " ++ ms
              ++ $" milliseconds. SQL: '" ++ mid2), rest.
    repeat rewrite <- app_assoc. reflexivity.
Qed.

Lemma no_marker_no_match content :
  ~ infix_of $"SlowQuery:" content -> findall pattern content = [].
Proof.
  intros H. pose proof (findall_pattern_wf content) as F.
  destruct (findall pattern content) as [|caps l]; [reflexivity|].
  inversion F as [|? ? W _]; subst. exfalso. apply H.
  destruct W as (ts & ms & q & _ & _ & _ & _ & _ & [pre [post ->]] & _).
  exists pre, ($" " ++ ms ++ $" milliseconds. SQL: '" ++ post).
  simpl. repeat rewrite <- app_assoc. reflexivity.
Qed.

Lemma digits_value_ok : forall s acc,
  forallb is_digit s = true -> 0 <= acc ->
  exists n, digits_value acc s = Ok n /\ 0 <= n.
Proof.
  induction s as [|c s IH]; cbn [digits_value forallb]; intros acc F A.
  - exists acc. auto.
  - apply andb_prop in F. destruct F as [Fc F]. rewrite Fc.
    apply IH; auto. lia.
Qed.

(** [int] succeeds on a run of digits. *)
Lemma py_int_digits s :
  s <> [] -> forallb is_digit s = true ->
  exists n, py_int s = Ok n /\ 0 <= n.
Proof.
  intros N F. unfold py_int. destruct s; [congruence|].
  apply digits_value_ok; auto. lia.
Qed.

Lemma ingest_matches_eq file_path : forall ms self n,
  ingest_matches self file_path ms n =
  (recs <- map_result (make_query_info file_path) ms ;;
   Ok (ingest_all self recs, (n + length recs)%nat)).
Proof.
  induction ms as [|m ms IH]; intros self n; simpl.
  - rewrite Nat.add_0_r. reflexivity.
  - destruct (make_query_info file_path m) as [q|e]; simpl; [|reflexivity].
    rewrite IH.
    destruct (map_result (make_query_info file_path) ms) as [recs|e]; simpl;
      [|reflexivity].
    unfold ingest_all. simpl. do 2 f_equal. lia.
Qed.

Lemma make_query_info_ok file_path content caps :
  wf_caps content caps ->
  exists r, make_query_info file_path caps = Ok r /\ built_from file_path caps r.
Proof.
  intros (ts & ms & q & -> & T & N & D & Q & _).
  unfold make_query_info, group. simpl nth.
  destruct (_extract_operation_and_table (strip q)) as [op tb] eqn:E.
  destruct (py_int_digits N D) as (n & I & Pos). rewrite I. simpl.
  eexists. split; [reflexivity|].
  unfold built_from, group. simpl. repeat split; auto.
Qed.

Lemma map_result_ok file_path content : forall ms,
  Forall (wf_caps content) ms ->
  exists recs,
    map_result (make_query_info file_path) ms = Ok recs /\
    Forall2 (built_from file_path) ms recs.
Proof.
  induction ms as [|m ms IH]; intros F; simpl.
  - exists []. split; auto.
  - inversion F as [|? ? W F']; subst.
    destruct (make_query_info_ok file_path W) as (r & -> & B).
    destruct (IH F') as (recs & -> & B').
    exists (r :: recs). split; auto.
Qed.

(** Extraction never raises: every captured time is a run of digits. *)
Lemma extract_records_ok file_path content :
  exists recs,
    extract_records file_path content = Ok recs /\
    Forall2 (built_from file_path) (findall pattern content) recs.
Proof. apply map_result_ok with content. apply findall_pattern_wf. Qed.

Lemma parse_single_file_eq self file_path content :
  _parse_single_file self file_path content =
  (recs <- extract_records file_path content ;;
   match recs with
   | [] => Ok (self, 0%nat)
   | _ =>
       Ok (set_file_stats (ingest_all self recs) file_path
             {| fs_queries := length recs;
                fs_file_size := length content;
                fs_basename := basename file_path |},
           length recs)
   end).
Proof.
  unfold _parse_single_file, extract_records.
  destruct content as [|c content]; [reflexivity|].
  destruct (findall pattern (c :: content)) as [|m ms] eqn:F; [reflexivity|].
  rewrite ingest_matches_eq.
  destruct (map_result (make_query_info file_path) (m :: ms)) as [recs|e] eqn:E;
    simpl; [|reflexivity].
  destruct recs as [|r recs]; [|reflexivity].
  simpl in E.
  destruct (make_query_info file_path m); simpl in E; [|discriminate].
  destruct (map_result (make_query_info file_path) ms); discriminate.
Qed.

(* ================================================================= *)
(** ** Dictionaries and groups *)

Lemma dict_get_In V k (v : V) : forall d, dict_get k d = Some v -> In (k, v) d.
Proof.
  induction d as [|[k' v'] d IH]; simpl; [discriminate|].
  destruct (str_eqb k' k) eqn:E.
  - apply str_eqb_eq in E. intros H. inversion H; subst. auto.
  - auto.
Qed.

Lemma dict_get_None V k : forall (d : list (str * V)),
  dict_get k d = None <-> ~ In k (map fst d).
Proof.
  induction d as [|[k' v'] d IH]; simpl.
  - tauto.
  - destruct (str_eqb k' k) eqn:E.
    + apply str_eqb_eq in E. subst. split; [discriminate|tauto].
    + apply str_eqb_neq in E. rewrite IH. tauto.
Qed.

Lemma In_dict_get V k (v : V) : forall d,
  NoDup (map fst d) -> In (k, v) d -> dict_get k d = Some v.
Proof.
  induction d as [|[k' v'] d IH]; simpl; intros N H; [contradiction|].
  inversion N as [|? ? Nk N']; subst.
  destruct H as [H|H].
  - inversion H; subst. rewrite str_eqb_refl. reflexivity.
  - destruct (str_eqb k' k) eqn:E.
    + apply str_eqb_eq in E. subst. exfalso. apply Nk.
      apply (in_map fst) in H. exact H.
    + auto.
Qed.

Lemma dict_get_append V k (x : V) k' : forall d,
  dict_get k' (dict_append k x d) =
  if str_eqb k k'
  then Some (match dict_get k d with Some g => g ++ [x] | None => [x] end)
  else dict_get k' d.
Proof.
  induction d as [|[k0 g0] d IH]; simpl.
  - reflexivity.
  - destruct (str_eqb k0 k) eqn:E0; simpl.
    + apply str_eqb_eq in E0. subst k0.
      destruct (str_eqb k k'); reflexivity.
    + rewrite IH. destruct (str_eqb k k') eqn:E.
      * apply str_eqb_eq in E. subst k'. rewrite E0. reflexivity.
      * reflexivity.
Qed.

Lemma keys_dict_append V k (x : V) : forall d,
  map fst (dict_append k x d) =
  match dict_get k d with
  | Some _ => map fst d
  | None => map fst d ++ [k]
  end.
Proof.
  induction d as [|[k0 g0] d IH]; simpl.
  - reflexivity.
  - destruct (str_eqb k0 k) eqn:E0; simpl.
    + reflexivity.
    + rewrite IH. destruct (dict_get k d); reflexivity.
Qed.

Lemma grouped_nil : grouped [] [].
Proof. split; [constructor|reflexivity]. Qed.

Lemma grouped_append l d q :
  grouped l d -> grouped (l ++ [q]) (dict_append (query_type q) q d).
Proof.
  intros [N G]. split.
  - rewrite keys_dict_append.
    destruct (dict_get (query_type q) d) eqn:E; [exact N|].
    apply dict_get_None in E.
    apply NoDup_rev in N. rewrite <- (rev_involutive (_ ++ _)).
    apply NoDup_rev. rewrite rev_app_distr. simpl. constructor; auto.
    rewrite <- in_rev. exact E.
  - intros k. rewrite dict_get_append. unfold members.
    rewrite filter_app. simpl. fold (members k l).
    destruct (str_eqb (query_type q) k) eqn:E.
    + apply str_eqb_eq in E. subst k. rewrite G.
      destruct (members (query_type q) l); reflexivity.
    + rewrite app_nil_r. apply G.
Qed.

Lemma grouped_In l d k g :
  grouped l d -> In (k, g) d -> g = members k l /\ g <> [].
Proof.
  intros [N G] H. apply In_dict_get in H; auto. rewrite G in H.
  destruct (members k l); [discriminate|]. inversion H; subst.
  split; [reflexivity|discriminate].
Qed.

Lemma queries_ingest_all recs : forall self,
  queries (ingest_all self recs) = queries self ++ recs.
Proof.
  unfold ingest_all. induction recs as [|r recs IH]; intros self; simpl.
  - rewrite app_nil_r. reflexivity.
  - rewrite IH. simpl. rewrite <- app_assoc. reflexivity.
Qed.

Lemma file_stats_ingest_all recs : forall self,
  file_stats (ingest_all self recs) = file_stats self.
Proof.
  unfold ingest_all. induction recs as [|r recs IH]; intros self; simpl; auto.
  rewrite IH. reflexivity.
Qed.

Lemma file_list_ingest_all recs : forall self,
  file_list (ingest_all self recs) = file_list self.
Proof.
  unfold ingest_all. induction recs as [|r recs IH]; intros self; simpl; auto.
  rewrite IH. reflexivity.
Qed.

Lemma grouped_ingest_all recs : forall self,
  grouped (queries self) (query_groups self) ->
  grouped (queries (ingest_all self recs)) (query_groups (ingest_all self recs)).
Proof.
  unfold ingest_all. induction recs as [|r recs IH]; intros self G; simpl; auto.
  apply IH. simpl. apply grouped_append. exact G.
Qed.

(* ================================================================= *)
(** ** States of a run *)

(** A step of [_parse_single_file] never raises; it appends the records
    of the file and touches [file_stats] only when there are some. *)
Lemma parse_single_file_total self file_path content :
  exists recs,
    extract_records file_path content = Ok recs /\
    Forall2 (built_from file_path) (findall pattern content) recs /\
    _parse_single_file self file_path content =
    Ok (match recs with
        | [] => self
        | _ => set_file_stats (ingest_all self recs) file_path
                 {| fs_queries := length recs;
                    fs_file_size := length content;
                    fs_basename := basename file_path |}
        end, length recs).
Proof.
  destruct (extract_records_ok file_path content) as (recs & E & B).
  exists recs. repeat split; auto.
  rewrite parse_single_file_eq, E. simpl. destruct recs; reflexivity.
Qed.

Lemma parse_single_file_queries self file_path content self' n :
  _parse_single_file self file_path content = Ok (self', n) ->
  exists recs,
    extract_records file_path content = Ok recs /\
    n = length recs /\
    queries self' = queries self ++ recs /\
    query_groups self' = query_groups (ingest_all self recs) /\
    file_list self' = file_list self.
Proof.
  intros H.
  destruct (parse_single_file_total self file_path content) as (recs & E & _ & P).
  rewrite P in H. inversion H; subst. exists recs.
  destruct recs as [|r recs].
  - rewrite app_nil_r. repeat split; auto.
  - unfold set_file_stats. cbn [queries query_groups file_list].
    rewrite queries_ingest_all, file_list_ingest_all.
    repeat split; auto.
Qed.

Lemma reachable_grouped self :
  reachable self -> grouped (queries self) (query_groups self).
Proof.
  induction 1 as [li|self p c self' n R IH H|self files R IH]; simpl.
  - apply grouped_nil.
  - apply parse_single_file_queries in H.
    destruct H as (recs & _ & _ & Q & G & _). rewrite G.
    replace (queries self') with (queries (ingest_all self recs))
      by (rewrite queries_ingest_all; auto).
    apply grouped_ingest_all. exact IH.
  - exact IH.
Qed.

Lemma parse_files_reachable files : forall self self',
  reachable self -> parse_files self files = Ok self' -> reachable self'.
Proof.
  induction files as [|[p c] files IH]; simpl; intros self self' R H.
  - inversion H; subst. exact R.
  - destruct (_parse_single_file self p c) as [[s1 n]|e] eqn:E; simpl in H;
      [|discriminate].
    eapply IH; [|exact H]. eapply reach_file; eauto.
Qed.

Lemma parse_log_files_reachable self files self' :
  reachable self -> parse_log_files self files = Ok self' -> reachable self'.
Proof.
  unfold parse_log_files. intros R H.
  eapply parse_files_reachable; [|exact H]. apply reach_list. exact R.
Qed.


(* ================================================================= *)
(** ** Sorting and slicing *)

Section SortFacts.
Variables (A K : Type) (key : A -> K) (ltb : K -> K -> bool).

Hypothesis ltb_asym : forall a b, ltb a b = true -> ltb b a = false.
Hypothesis not_below_trans :
  forall a b c, ltb a b = false -> ltb b c = false -> ltb a c = false.

Lemma insert_desc_perm x : forall l,
  Permutation (insert_desc key ltb x l) (x :: l).
Proof.
  induction l as [|y l IH]; simpl; [apply Permutation_refl|].
  destruct (ltb (key x) (key y)); [|apply Permutation_refl].
  eapply Permutation_trans; [apply perm_skip, IH|apply perm_swap].
Qed.

Lemma sort_desc_perm : forall l, Permutation (sort_desc key ltb l) l.
Proof.
  induction l as [|x l IH]; simpl; [constructor|].
  eapply Permutation_trans; [apply insert_desc_perm|].
  apply perm_skip, IH.
Qed.

Lemma insert_desc_sorted x : forall l,
  StronglySorted (not_below key ltb) l ->
  StronglySorted (not_below key ltb) (insert_desc key ltb x l).
Proof.
  induction l as [|y l IH]; simpl; intros S.
  - repeat constructor.
  - inversion S as [|? ? S' F]; subst.
    destruct (ltb (key x) (key y)) eqn:E.
    + constructor; [apply IH, S'|].
      eapply Permutation_Forall;
        [apply Permutation_sym, insert_desc_perm|].
      constructor; [apply ltb_asym, E|exact F].
    + constructor; [exact S|].
      constructor; [exact E|].
      eapply Forall_impl; [|exact F].
      intros z Hz. eapply not_below_trans; eauto.
Qed.

Lemma sort_desc_sorted : forall l,
  StronglySorted (not_below key ltb) (sort_desc key ltb l).
Proof.
  induction l as [|x l IH]; simpl; [constructor|].
  apply insert_desc_sorted, IH.
Qed.

(** Stability: entries that the order does not separate keep their
    places relative to one another. *)
Lemma insert_desc_filter (f : A -> bool) x :
  (forall y, f x = true -> f y = true -> ltb (key x) (key y) = false) ->
  forall l,
    filter f (insert_desc key ltb x l) = filter f (x :: l).
Proof.
  intros Hf. induction l as [|y l IH]; [reflexivity|].
  simpl insert_desc. destruct (ltb (key x) (key y)) eqn:E; [|reflexivity].
  simpl in *. rewrite IH.
  destruct (f x) eqn:Fx, (f y) eqn:Fy; auto.
  rewrite Hf in E; auto. discriminate.
Qed.

Lemma sort_desc_stable (f : A -> bool) :
  (forall x y, f x = true -> f y = true -> ltb (key x) (key y) = false) ->
  forall l, filter f (sort_desc key ltb l) = filter f l.
Proof.
  intros Hf. induction l as [|x l IH]; [reflexivity|].
  simpl sort_desc. rewrite insert_desc_filter by (intros; apply Hf; auto).
  simpl. rewrite IH. reflexivity.
Qed.
End SortFacts.

Lemma StronglySorted_weaken A (R R' : A -> A -> Prop) l :
  (forall a b, R a b -> R' a b) -> StronglySorted R l -> StronglySorted R' l.
Proof.
  intros H. induction 1 as [|x l S IH F]; constructor; auto.
  eapply Forall_impl; [|exact F]. auto.
Qed.

Lemma StronglySorted_firstn A (R : A -> A -> Prop) : forall n l,
  StronglySorted R l -> StronglySorted R (firstn n l).
Proof.
  induction n as [|n IH]; intros l S; simpl; [constructor|].
  destruct l as [|x l]; [constructor|].
  inversion S as [|? ? S' F]; subst. constructor; [apply IH, S'|].
  rewrite <- (firstn_skipn n l) in F. apply Forall_app in F. tauto.
Qed.

Lemma In_firstn A (x : A) n l : In x (firstn n l) -> In x l.
Proof.
  intros H. rewrite <- (firstn_skipn n l). apply in_or_app. auto.
Qed.

Lemma py_slice_to_firstn A k (l : list A) :
  exists n, py_slice_to k l = firstn n l.
Proof. unfold py_slice_to. destruct (0 <=? k); eauto. Qed.

Lemma py_slice_to_length A k (l : list A) :
  (0 <= k -> Z.of_nat (length (py_slice_to k l)) = Z.min k (Z.of_nat (length l))) /\
  (k < 0 -> Z.of_nat (length (py_slice_to k l)) = Z.max 0 (Z.of_nat (length l) + k)).
Proof.
  unfold py_slice_to. split; intros Hk.
  - destruct (0 <=? k) eqn:E; [|apply Z.leb_gt in E; lia].
    rewrite length_firstn. lia.
  - destruct (0 <=? k) eqn:E; [apply Z.leb_le in E; lia|].
    rewrite length_firstn. lia.
Qed.

Lemma Z_ltb_asym a b : (a <? b) = true -> (b <? a) = false.
Proof. intros H. apply Z.ltb_lt in H. apply Z.ltb_ge. lia. Qed.

Lemma Z_not_below_trans a b c :
  (a <? b) = false -> (b <? c) = false -> (a <? c) = false.
Proof. rewrite !Z.ltb_ge. lia. Qed.

Lemma pair_ltb_lt a b :
  pair_ltb a b = true <->
  fst a < fst b \/ (fst a = fst b /\ snd a < snd b).
Proof.
  unfold pair_ltb.
  rewrite orb_true_iff, andb_true_iff, !Z.ltb_lt, Z.eqb_eq. tauto.
Qed.

Lemma pair_ltb_ge a b :
  pair_ltb a b = false <->
  fst a > fst b \/ (fst a = fst b /\ snd a >= snd b).
Proof.
  destruct (pair_ltb a b) eqn:E.
  - apply pair_ltb_lt in E. split; [discriminate|lia].
  - split; [intros _|reflexivity].
    assert (N : ~ (fst a < fst b \/ (fst a = fst b /\ snd a < snd b))).
    { intros H. apply pair_ltb_lt in H. congruence. }
    lia.
Qed.

Lemma pair_ltb_asym a b : pair_ltb a b = true -> pair_ltb b a = false.
Proof. rewrite pair_ltb_lt, pair_ltb_ge. lia. Qed.

Lemma pair_not_below_trans a b c :
  pair_ltb a b = false -> pair_ltb b c = false -> pair_ltb a c = false.
Proof. rewrite !pair_ltb_ge. lia. Qed.

(** A list has one stable descending rearrangement only, so any stable
    sort returns what [sort_desc] returns. *)
Lemma stable_desc_unique A (key : A -> Z) : forall l1 l2,
  Permutation l1 l2 ->
  StronglySorted (fun a b => key a >= key b) l1 ->
  StronglySorted (fun a b => key a >= key b) l2 ->
  (forall t, filter (fun x => key x =? t) l1 = filter (fun x => key x =? t) l2) ->
  l1 = l2.
Proof.
  induction l1 as [|x l1 IH]; intros l2 P S1 S2 F.
  - apply Permutation_nil in P. auto.
  - destruct l2 as [|y l2];
      [apply Permutation_sym, Permutation_nil in P; discriminate|].
    inversion S1 as [|? ? S1' F1]; subst. inversion S2 as [|? ? S2' F2]; subst.
    assert (Kyx : key y >= key x).
    { assert (I : In x (y :: l2))
        by (eapply Permutation_in; [exact P|left; reflexivity]).
      destruct I as [->|I]; [lia|]. rewrite Forall_forall in F2. auto. }
    assert (Kxy : key x >= key y).
    { assert (I : In y (x :: l1))
        by (eapply Permutation_in; [apply Permutation_sym, P|left; reflexivity]).
      destruct I as [->|I]; [lia|]. rewrite Forall_forall in F1. auto. }
    assert (K : key y = key x) by lia.
    pose proof (F (key x)) as Fx. simpl in Fx.
    rewrite K, Z.eqb_refl in Fx. inversion Fx; subst y.
    f_equal. apply IH; auto.
    + eapply Permutation_cons_inv. exact P.
    + intros t. specialize (F t). simpl in F.
      destruct (key x =? t); [inversion F|]; auto.
Qed.

Lemma sort_desc_characterised A (key : A -> Z) l l' :
  Permutation l' l ->
  StronglySorted (fun a b => key a >= key b) l' ->
  (forall t, filter (fun x => key x =? t) l' = filter (fun x => key x =? t) l) ->
  l' = sort_desc key Z.ltb l.
Proof.
  intros P S F. apply stable_desc_unique with key; auto.
  - eapply Permutation_trans; [exact P|]. apply Permutation_sym, sort_desc_perm.
  - eapply StronglySorted_weaken;
      [|apply (sort_desc_sorted key Z.ltb Z_ltb_asym Z_not_below_trans)].
    intros a b H. unfold not_below in H. apply Z.ltb_ge in H. lia.
  - intros t. rewrite F. symmetry. apply sort_desc_stable.
    intros x y Hx Hy. apply Z.eqb_eq in Hx, Hy. apply Z.ltb_ge. lia.
Qed.

(* ================================================================= *)
(** ** Group summaries *)

Lemma fold_left_add l : forall a, fold_left Z.add l a = a + sum_list l.
Proof.
  induction l as [|x l IH]; intros a; simpl; [lia|]. rewrite IH. lia.
Qed.

Lemma py_sum_eq l : py_sum l = sum_list l.
Proof. unfold py_sum. rewrite fold_left_add. lia. Qed.

Lemma fold_left_max l : forall x, is_max (fold_left Z.max l x) (x :: l).
Proof.
  induction l as [|y l IH]; intros x; simpl.
  - split; [now left|]. constructor; [lia|constructor].
  - destruct (IH (Z.max x y)) as [I F]. inversion F as [|? ? Fx F']; subst.
    split.
    + destruct I as [I|I]; [|right; right; exact I].
      rewrite <- I.
      destruct (Z.max_spec x y) as [[_ M]|[_ M]]; rewrite M; simpl; auto.
    + constructor; [lia|]. constructor; [lia|exact F'].
Qed.

Lemma fold_left_min l : forall x, is_min (fold_left Z.min l x) (x :: l).
Proof.
  induction l as [|y l IH]; intros x; simpl.
  - split; [now left|]. constructor; [lia|constructor].
  - destruct (IH (Z.min x y)) as [I F]. inversion F as [|? ? Fx F']; subst.
    split.
    + destruct I as [I|I]; [|right; right; exact I].
      rewrite <- I.
      destruct (Z.min_spec x y) as [[_ M]|[_ M]]; rewrite M; simpl; auto.
    + constructor; [lia|]. constructor; [lia|exact F'].
Qed.

Lemma summarize_ok l k g :
  g = members k l -> g <> [] ->
  exists s, summarize k g = Ok s /\ g_query_type s = k /\ summary_of l s.
Proof.
  intros -> N. unfold summarize, py_truediv.
  destruct (members k l) as [|q g] eqn:E; [congruence|].
  cbn [map length py_max py_min py_first bind].
  destruct (Z.of_nat (S (length (map execution_time g))) =? 0) eqn:Z0;
    [apply Z.eqb_eq in Z0; lia|].
  cbn [bind]. eexists. split; [reflexivity|]. split; [reflexivity|].
  unfold summary_of. cbn [g_query_type hits total_time avg_time max_time min_time].
  rewrite E. cbn [map length]. rewrite length_map, py_sum_eq.
  repeat split; try discriminate.
  - apply fold_left_max.
  - apply fold_left_max.
  - apply fold_left_min.
  - apply fold_left_min.
Qed.

Lemma summaries_ok l : forall d,
  (forall k g, In (k, g) d -> g = members k l /\ g <> []) ->
  exists gs,
    summaries d = Ok gs /\
    length gs = length d /\
    Forall (summary_of l) gs.
Proof.
  induction d as [|[k g] d IH]; intros H; simpl.
  - exists []. auto.
  - destruct (H k g (or_introl eq_refl)) as [Hg Hn].
    destruct (@summarize_ok l k g Hg Hn) as (s & -> & _ & S).
    destruct IH as (gs & -> & L & F); [intros; apply H; simpl; auto|].
    simpl. exists (s :: gs). simpl. auto.
Qed.

Lemma reachable_summaries self :
  reachable self ->
  exists gs,
    summaries (query_groups self) = Ok gs /\
    length gs = length (query_groups self) /\
    Forall (summary_of (queries self)) gs.
Proof.
  intros R. apply summaries_ok. intros k g.
  apply grouped_In, reachable_grouped, R.
Qed.

(* ================================================================= *)
(** ** The classifier, read without the regex engine *)

Lemma take_drop_while p : forall s, take_while p s ++ drop_while p s = s.
Proof.
  induction s as [|c s IH]; simpl; [reflexivity|].
  destruct (p c); simpl; [rewrite IH|]; reflexivity.
Qed.

Lemma take_while_all p : forall s, forallb p (take_while p s) = true.
Proof.
  induction s as [|c s IH]; simpl; [reflexivity|].
  destruct (p c) eqn:E; simpl; [rewrite E, IH|]; reflexivity.
Qed.

Lemma rmatch_Lit A kw : forall s caps (k : str -> list str -> option A),
  rmatch (Lit kw) s caps k =
  if startswith kw s then k (skipn (length kw) s) caps else None.
Proof.
  induction kw as [|a kw IH]; intros s caps k; simpl; [reflexivity|].
  destruct s as [|x s]; [reflexivity|].
  rewrite (Ascii.eqb_sym a x). destruct (Ascii.eqb x a); simpl; [apply IH|reflexivity].
Qed.

(** A greedy star whose continuation succeeds on the longest run stops
    there. *)
Lemma rmatch_Star_longest A p (k : str -> list str -> option A) caps a :
  forall s,
    k (drop_while p s) caps = Some a -> rmatch (Star p) s caps k = Some a.
Proof.
  simpl. induction s as [|x s IH]; simpl; intros H; [exact H|].
  destruct (p x); [|exact H]. rewrite IH; auto.
Qed.

(** A greedy star whose continuation cannot start with a character of
    the class never gives a character back. *)
Lemma rmatch_Star_skip A p (k : str -> list str -> option A) caps :
  (forall c t, p c = true -> k (c :: t) caps = None) ->
  forall s, rmatch (Star p) s caps k = k (drop_while p s) caps.
Proof.
  intros Hk. simpl. induction s as [|x s IH]; simpl; [reflexivity|].
  destruct (p x) eqn:E; [|reflexivity].
  rewrite IH. destruct (k (drop_while p s) caps) eqn:K; [reflexivity|].
  apply Hk. exact E.
Qed.

Lemma rmatch_Plus_skip A p (k : str -> list str -> option A) caps :
  (forall c t, p c = true -> k (c :: t) caps = None) ->
  forall s,
    rmatch (Plus p) s caps k =
    match take_while p s with
    | [] => None
    | _ => k (drop_while p s) caps
    end.
Proof.
  intros Hk s. unfold Plus. cbn [rmatch].
  destruct s as [|x s]; [reflexivity|]. cbn [take_while drop_while].
  destruct (p x); [|reflexivity].
  apply (rmatch_Star_skip p k caps Hk).
Qed.

Lemma rmatch_word_group s caps :
  rmatch (Group (Plus is_word)) s caps final =
  match take_while is_word s with
  | [] => None
  | id => Some (caps ++ [id], drop_while is_word s)
  end.
Proof.
  unfold Plus. cbn [rmatch].
  destruct s as [|x s]; [reflexivity|]. cbn [take_while drop_while].
  destruct (is_word x) eqn:E; [|reflexivity].
  pose proof (rmatch_Star_longest is_word
    (fun s' caps' => final s' (caps' ++ [firstn (length (x :: s) - length s') (x :: s)]))
    caps) as L.
  cbn [rmatch] in L. erewrite L; [|reflexivity].
  assert (Hf : firstn (length (x :: s) - length (drop_while is_word s)) (x :: s)
               = x :: take_while is_word s).
  { rewrite <- (take_drop_while is_word s) at 1 3.
    apply (firstn_app_exact (x :: take_while is_word s)). }
  unfold final. rewrite Hf. reflexivity.
Qed.

Lemma space_not_word c : is_space c = true -> is_word c = false.
Proof.
  destruct c as [[] [] [] [] [] [] [] []]; vm_compute; congruence.
Qed.

Lemma ident_after_space kws c t :
  forallb nonspace_head kws = true -> is_space c = true ->
  ident_after kws (c :: t) = None.
Proof.
  intros F Sp. destruct kws as [|kw kws]; simpl.
  - rewrite (space_not_word c Sp). reflexivity.
  - simpl in F. apply andb_prop in F. destruct F as [F _].
    destruct kw as [|a kw]; [discriminate|]. simpl in F |- *.
    destruct (Ascii.eqb a c) eqn:E; [|reflexivity].
    apply Ascii.eqb_eq in E. subst. rewrite Sp in F. discriminate.
Qed.

Lemma rmatch_keyword_re : forall kws,
  forallb nonspace_head kws = true ->
  forall s caps,
    rmatch (keyword_re kws) s caps final =
    match ident_after kws s with
    | Some (id, rest) => Some (caps ++ [id], rest)
    | None => None
    end.
Proof.
  induction kws as [|kw kws IH]; intros F s caps.
  - cbn [keyword_re ident_after]. rewrite rmatch_word_group.
    destruct (take_while is_word s); reflexivity.
  - cbn [forallb] in F. apply andb_prop in F. destruct F as [Fk F].
    cbn [keyword_re ident_after]. cbn [rmatch].
    rewrite rmatch_Lit. destruct (startswith kw s); [|reflexivity].
    change (rmatch (Seq (Class is_space) (Star is_space)))
      with (rmatch (A:=list str * str) (Plus is_space)).
    rewrite rmatch_Plus_skip.
    + destruct (take_while is_space (skipn (length kw) s)); [reflexivity|].
      apply IH. exact F.
    + intros c t Sp. rewrite IH by exact F.
      rewrite ident_after_space; auto.
Qed.

Lemma match_at_keyword_re kws s :
  forallb nonspace_head kws = true ->
  match_at (keyword_re kws) s =
  match ident_after kws s with
  | Some (id, rest) => Some ([id], rest)
  | None => None
  end.
Proof. intros F. apply (rmatch_keyword_re kws F s []). Qed.

Lemma search_keyword_re kws :
  forallb nonspace_head kws = true ->
  forall s b,
    search (keyword_re kws) s =
    match first_ident false kws b s with
    | Some id => Some [id]
    | None => None
    end.
Proof.
  intros F. induction s as [|c s IH]; intros b; simpl;
    rewrite match_at_keyword_re by exact F.
  - destruct (ident_after kws []) as [[id rest]|]; reflexivity.
  - destruct (ident_after kws (c :: s)) as [[id rest]|]; [reflexivity|].
    apply IH.
Qed.

Lemma table_of_search kws s :
  forallb nonspace_head kws = true ->
  table_of (search (keyword_re kws) s) = table_after false kws s.
Proof.
  intros F. unfold table_of, table_after.
  rewrite (search_keyword_re kws F s false).
  destruct (first_ident false kws false s); reflexivity.
Qed.

(** *** What [ident_after] and [first_ident] find *)

Lemma starts_drop_while p : forall s, starts p (drop_while p s) = false.
Proof.
  induction s as [|c s IH]; simpl; [reflexivity|].
  destruct (p c) eqn:E; [exact IH|]. simpl. exact E.
Qed.

Lemma take_drop_while_app p w : forall s,
  forallb p w = true -> starts p s = false ->
  take_while p (w ++ s) = w /\ drop_while p (w ++ s) = s.
Proof.
  induction w as [|a w IH]; simpl; intros s F St.
  - destruct s as [|c s]; [auto|]. simpl in *. rewrite St. auto.
  - apply andb_prop in F. destruct F as [-> F].
    destruct (IH s F St) as [-> ->]. auto.
Qed.

Lemma word_not_space c : is_word c = true -> is_space c = false.
Proof.
  intros W. destruct (is_space c) eqn:E; [|reflexivity].
  apply space_not_word in E. congruence.
Qed.

Lemma skipn_length_app (a b : str) : skipn (length a) (a ++ b) = b.
Proof. induction a; simpl; auto. Qed.

Lemma ident_after_occurrence : forall kws s id rest,
  ident_after kws s = Some (id, rest) -> occurrence kws s id.
Proof.
  induction kws as [|kw kws IH]; intros s id rest H; cbn [ident_after] in H.
  - pose proof (take_while_all is_word s) as W.
    pose proof (take_drop_while is_word s) as TD.
    destruct (take_while is_word s) as [|c w] eqn:E; [discriminate|].
    inversion H; subst. rewrite <- TD.
    constructor; [discriminate|exact W|apply starts_drop_while].
  - destruct (startswith kw s) eqn:P; [|discriminate].
    apply startswith_app in P. destruct P as [post ->].
    rewrite skipn_length_app in H.
    pose proof (take_while_all is_space post) as W.
    pose proof (take_drop_while is_space post) as TD.
    destruct (take_while is_space post) as [|c w] eqn:E; [discriminate|].
    apply IH in H. rewrite <- TD.
    constructor; [discriminate|exact W|exact H].
Qed.

Lemma occurrence_head kws s id :
  forallb nonspace_head kws = true -> occurrence kws s id ->
  starts is_space s = false.
Proof.
  intros F O. destruct O as [id rest N W _|kw kws ws s id _ _ _].
  - destruct id as [|c id]; [congruence|]. simpl in *.
    apply andb_prop in W. destruct W as [W _]. apply word_not_space, W.
  - simpl in F. apply andb_prop in F. destruct F as [F _].
    destruct kw as [|c kw]; [discriminate|]. simpl in *.
    destruct (is_space c); [discriminate|reflexivity].
Qed.

Lemma occurrence_ident_after kws s id :
  forallb nonspace_head kws = true -> occurrence kws s id ->
  exists rest, ident_after kws s = Some (id, rest).
Proof.
  intros F O. induction O as [id rest N W St|kw kws ws s id N W O IH];
    cbn [ident_after].
  - destruct (take_drop_while_app is_word id rest W St) as [-> ->].
    destruct id; [congruence|]. eauto.
  - assert (P : startswith kw (kw ++ ws ++ s) = true)
      by (apply startswith_app; eauto).
    rewrite P, skipn_length_app.
    simpl in F. apply andb_prop in F. destruct F as [_ F].
    pose proof (occurrence_head F O) as Hd.
    destruct (take_drop_while_app is_space ws s W Hd) as [-> ->].
    destruct ws; [congruence|]. apply IH, F.
Qed.

Lemma first_ident_leftmost kws :
  forallb nonspace_head kws = true ->
  forall s b id,
    first_ident false kws b s = Some id -> leftmost_occurrence kws s id.
Proof.
  intros F. induction s as [|c s IH]; intros b id H; cbn [first_ident andb] in H.
  - destruct (ident_after kws []) as [[i r]|] eqn:E; [|discriminate].
    inversion H; subst. exists [], []. split; [reflexivity|].
    split; [eapply ident_after_occurrence; eauto|]. intros. simpl. lia.
  - destruct (ident_after kws (c :: s)) as [[i r]|] eqn:E.
    + inversion H; subst. exists [], (c :: s). split; [reflexivity|].
      split; [eapply ident_after_occurrence; eauto|]. intros. simpl. lia.
    + apply IH in H. destruct H as (pre & post & -> & O & Min).
      exists (c :: pre), post. split; [reflexivity|]. split; [exact O|].
      intros pre' post' id' Eq O'. destruct pre' as [|c' pre'].
      * simpl in Eq. subst post'.
        destruct (occurrence_ident_after F O') as [rest' E']. congruence.
      * simpl in Eq. inversion Eq; subst. simpl.
        apply le_n_S. eapply Min; eauto.
Qed.

Lemma first_ident_none kws :
  forallb nonspace_head kws = true ->
  forall s b, first_ident false kws b s = None -> no_occurrence kws s.
Proof.
  intros F. induction s as [|c s IH]; intros b H pre post id Eq O;
    cbn [first_ident andb] in H.
  - destruct pre; [|discriminate]. simpl in Eq. subst post.
    destruct (occurrence_ident_after F O) as [rest E]. rewrite E in H. discriminate.
  - destruct (ident_after kws (c :: s)) as [[i r]|] eqn:E; [discriminate|].
    destruct pre as [|c' pre].
    + simpl in Eq. subst post.
      destruct (occurrence_ident_after F O) as [rest E']. congruence.
    + simpl in Eq. inversion Eq; subst.
      eapply (IH _ H pre post id); eauto.
Qed.

(** [table_after] without the word boundary: the identifier of the
    leftmost occurrence, or [unknown] when there is none. *)
Lemma table_after_spec kws s :
  forallb nonspace_head kws = true ->
  leftmost_occurrence kws s (table_after false kws s) \/
  (no_occurrence kws s /\ table_after false kws s = $"unknown").
Proof.
  intros F. unfold table_after.
  destruct (first_ident false kws false s) as [id|] eqn:E.
  - left. eapply first_ident_leftmost; eauto.
  - right. split; [eapply first_ident_none; eauto|reflexivity].
Qed.

(* ================================================================= *)
(** ** Well-formed records *)

Lemma ident_after_sound : forall kws s id rest,
  ident_after kws s = Some (id, rest) ->
  id <> [] /\ forallb is_word id = true /\ exists pre, s = pre ++ id ++ rest.
Proof.
  induction kws as [|kw kws IH]; intros s id rest H.
  - cbn [ident_after] in H.
    pose proof (take_while_all is_word s) as W.
    pose proof (take_drop_while is_word s) as TD.
    destruct (take_while is_word s) as [|c w] eqn:E; [discriminate|].
    inversion H; subst. split; [discriminate|]. split; [exact W|].
    exists []. simpl. simpl in TD. auto.
  - cbn [ident_after] in H. destruct (startswith kw s); [|discriminate].
    destruct (take_while is_space (skipn (length kw) s)) eqn:E; [discriminate|].
    apply IH in H. destruct H as (N & W & pre & P).
    split; [exact N|]. split; [exact W|].
    exists (firstn (length kw) s ++ take_while is_space (skipn (length kw) s) ++ pre).
    repeat rewrite <- app_assoc. rewrite <- P, take_drop_while.
    symmetry. apply firstn_skipn.
Qed.

Lemma first_ident_sound wb kws : forall s b id,
  first_ident wb kws b s = Some id ->
  id <> [] /\ forallb is_word id = true /\ infix_of id s.
Proof.
  induction s as [|c s IH]; intros b id H; cbn [first_ident] in H.
  - destruct (wb && b)%bool; [discriminate|].
    destruct (ident_after kws []) as [[i r]|] eqn:E; [|discriminate].
    inversion H; subst. apply ident_after_sound in E.
    destruct E as (N & W & pre & P). repeat split; auto. exists pre, r. exact P.
  - destruct (if (wb && b)%bool then None else ident_after kws (c :: s))
      as [[i r]|] eqn:E.
    + destruct (wb && b)%bool; [discriminate|].
      inversion H; subst. apply ident_after_sound in E.
      destruct E as (N & W & pre & P). repeat split; auto. exists pre, r. exact P.
    + apply IH in H. destruct H as (N & W & pre & post & ->).
      repeat split; auto. exists (c :: pre), post. reflexivity.
Qed.

Lemma to_lower_not_upper c : is_upper (to_lower c) = false.
Proof. destruct c as [[] [] [] [] [] [] [] []]; vm_compute; reflexivity. Qed.

Lemma word_not_upper_ident c :
  is_word c = true -> is_upper c = false -> is_ident_char c = true.
Proof.
  unfold is_word, is_ident_char. intros W U. rewrite U in W.
  rewrite orb_false_r in W. exact W.
Qed.

Lemma infix_lower_ident id q :
  id <> [] -> forallb is_word id = true -> infix_of id (lower q) ->
  lower_identifier id.
Proof.
  intros N W (pre & post & E). split; [exact N|].
  apply forallb_forall. intros c Hc.
  apply word_not_upper_ident.
  - rewrite forallb_forall in W. auto.
  - assert (In c (lower q)) as I.
    { rewrite E. apply in_or_app. right. apply in_or_app. left. exact Hc. }
    unfold lower in I. apply in_map_iff in I. destruct I as (c0 & <- & _).
    apply to_lower_not_upper.
Qed.

Lemma table_after_lower wb kws q :
  table_after wb kws (lower q) = $"unknown" \/
  lower_identifier (table_after wb kws (lower q)).
Proof.
  unfold table_after.
  destruct (first_ident wb kws false (lower q)) as [id|] eqn:E; [|auto].
  right. apply first_ident_sound in E. destruct E as (N & W & I).
  eapply infix_lower_ident; eauto.
Qed.

Lemma classify_wf wb q op tb :
  classify wb q = (op, tb) ->
  In op operations /\ (tb = $"unknown" \/ lower_identifier tb).
Proof.
  unfold classify, operations. intros H.
  repeat match type of H with
         | (if ?b then _ else _) = _ => destruct b
         end;
    inversion H; subst; split; simpl; auto 6; apply table_after_lower.
Qed.

Lemma make_query_info_wf file_path caps r :
  make_query_info file_path caps = Ok r -> wf_record r.
Proof.
  unfold make_query_info. intros H.
  destruct (_extract_operation_and_table (strip (group 3 caps))) as [op tb] eqn:E.
  destruct (py_int (group 2 caps)); simpl in H; [|discriminate].
  inversion H; subst. unfold wf_record. cbn [query_type operation table].
  unfold _extract_operation_and_table, from_re, insert_re, update_re, delete_re in E.
  rewrite !table_of_search in E by reflexivity.
  apply (@classify_wf false) in E. tauto.
Qed.

Lemma map_result_wf file_path : forall ms recs,
  map_result (make_query_info file_path) ms = Ok recs -> Forall wf_record recs.
Proof.
  induction ms as [|m ms IH]; simpl; intros recs H.
  - inversion H; subst. constructor.
  - destruct (make_query_info file_path m) as [r|] eqn:E; simpl in H; [|discriminate].
    destruct (map_result (make_query_info file_path) ms) as [rs|]; simpl in H;
      [|discriminate].
    inversion H; subst. constructor; [eapply make_query_info_wf; eauto|auto].
Qed.

Lemma reachable_wf self : reachable self -> Forall wf_record (queries self).
Proof.
  induction 1 as [li|self p c self' n R IH H|self files R IH]; simpl.
  - constructor.
  - apply parse_single_file_queries in H.
    destruct H as (recs & E & _ & -> & _). apply Forall_app. split; [exact IH|].
    eapply map_result_wf. exact E.
  - exact IH.
Qed.

Lemma members_app k l1 l2 : members k (l1 ++ l2) = members k l1 ++ members k l2.
Proof. apply filter_app. Qed.

Lemma members_In k l r : In r (members k l) -> query_type r = k /\ In r l.
Proof.
  unfold members. rewrite filter_In, str_eqb_eq. tauto.
Qed.

(* ================================================================= *)
(** ** A whole run *)

Lemma dict_get_set V k (v : V) k' : forall d,
  dict_get k' (dict_set k v d) =
  if str_eqb k k' then Some v else dict_get k' d.
Proof.
  induction d as [|[k0 v0] d IH]; simpl.
  - reflexivity.
  - destruct (str_eqb k0 k) eqn:E0; simpl.
    + apply str_eqb_eq in E0. subst k0. destruct (str_eqb k k'); reflexivity.
    + rewrite IH. destruct (str_eqb k k') eqn:E; [|reflexivity].
      apply str_eqb_eq in E. subst k'. rewrite E0. reflexivity.
Qed.

Lemma dict_set_absent V k (v : V) : forall d,
  dict_get k d = None -> dict_set k v d = d ++ [(k, v)].
Proof.
  induction d as [|[k0 v0] d IH]; simpl; intros H; [reflexivity|].
  destruct (str_eqb k0 k); [discriminate|]. rewrite IH; auto.
Qed.

Lemma stats_of_keys files p :
  In p (map fst (stats_of files)) -> In p (map fst files).
Proof.
  induction files as [|[p0 c0] files IH]; simpl; [auto|].
  destruct (Nat.eqb (count_of c0) 0); simpl; tauto.
Qed.

(** One step, in terms of [count_of] and [stat_of]. *)
Lemma parse_single_file_step self file_path content :
  exists self',
    _parse_single_file self file_path content = Ok (self', count_of content) /\
    length (queries self') = (length (queries self) + count_of content)%nat /\
    file_list self' = file_list self /\
    file_stats self' =
      (if Nat.eqb (count_of content) 0 then file_stats self
       else dict_set file_path (stat_of file_path content) (file_stats self)).
Proof.
  destruct (parse_single_file_total self file_path content) as (recs & _ & B & P).
  apply Forall2_length in B. fold (count_of content) in B.
  rewrite P, <- B. destruct recs as [|r recs].
  - exists self. simpl in B. rewrite B. simpl. repeat split; auto.
  - eexists. split; [reflexivity|].
    unfold set_file_stats. cbn [queries file_list file_stats].
    rewrite queries_ingest_all, file_list_ingest_all, file_stats_ingest_all.
    rewrite length_app. rewrite B. simpl Nat.eqb. unfold stat_of.
    rewrite <- B. repeat split; auto.
Qed.

Lemma parse_files_run : forall files self,
  NoDup (map fst files) ->
  (forall p, In p (map fst files) -> dict_get p (file_stats self) = None) ->
  exists self',
    parse_files self files = Ok self' /\
    length (queries self') = (length (queries self) + total_count files)%nat /\
    file_list self' = file_list self /\
    file_stats self' = file_stats self ++ stats_of files.
Proof.
  induction files as [|[p c] files IH]; intros self N Fresh; simpl.
  - exists self. rewrite app_nil_r, Nat.add_0_r. auto.
  - inversion N as [|? ? Np N']; subst.
    destruct (parse_single_file_step self p c) as (s1 & -> & Q1 & L1 & S1).
    simpl. destruct (IH s1 N') as (s2 & -> & Q2 & L2 & S2).
    + intros p' Hp'. rewrite S1.
      destruct (Nat.eqb (count_of c) 0); [apply Fresh; simpl; auto|].
      rewrite dict_get_set. destruct (str_eqb p p') eqn:E.
      * apply str_eqb_eq in E. subst. contradiction.
      * apply Fresh. simpl. auto.
    + exists s2. split; [reflexivity|]. rewrite Q2, Q1, L2, L1, S2, S1.
      split; [lia|]. split; [reflexivity|].
      destruct (Nat.eqb (count_of c) 0); [reflexivity|].
      rewrite dict_set_absent by (apply Fresh; simpl; auto).
      rewrite <- app_assoc. reflexivity.
Qed.

(** A run of a fresh analyzer over the discovered files, whose paths are
    distinct ([_find_repository_files] returns [sorted(set(files))]). *)
Lemma parse_log_files_run li files :
  NoDup (map fst files) ->
  exists self,
    parse_log_files (__init__ li) files = Ok self /\
    reachable self /\
    length (queries self) = total_count files /\
    file_list self = map fst files /\
    file_stats self = stats_of files.
Proof.
  intros N.
  destruct (@parse_files_run files
              {| log_input := li; file_list := map fst files; queries := [];
                 query_groups := []; file_stats := [] |} N)
    as (s & P & Q & L & S); [reflexivity|].
  exists s. unfold parse_log_files. simpl. split; [exact P|].
  split; [|auto].
  eapply parse_files_reachable; [|exact P].
  apply (reach_list (map fst files) (reach_init li)).
Qed.

(** *** The breakdown by base name *)

Lemma last_entry_eq b o p st :
  last_entry b o (p, st) =
  if str_eqb (fs_basename st) b then Some (entry_of st) else o.
Proof. reflexivity. Qed.

Lemma build_source_files_get b : forall stats acc,
  dict_get b (fold_left add_source_file stats acc) =
  fold_left (last_entry b) stats (dict_get b acc).
Proof.
  induction stats as [|[p st] stats IH]; intros acc; simpl; [reflexivity|].
  rewrite IH, last_entry_eq. unfold add_source_file. simpl.
  rewrite dict_get_set. reflexivity.
Qed.

(** The entry under a base name is the one of the last file that has it. *)
Lemma build_source_files_last stats1 p st stats2 :
  (forall p' st', In (p', st') stats2 -> fs_basename st' <> fs_basename st) ->
  dict_get (fs_basename st) (build_source_files (stats1 ++ (p, st) :: stats2))
  = Some (entry_of st).
Proof.
  intros H. unfold build_source_files. rewrite build_source_files_get.
  rewrite fold_left_app. simpl. rewrite last_entry_eq, str_eqb_refl.
  clear stats1. induction stats2 as [|[p' st'] stats2 IH]; simpl; [reflexivity|].
  rewrite last_entry_eq.
  destruct (str_eqb (fs_basename st') (fs_basename st)) eqn:E.
  - apply str_eqb_eq in E. exfalso. eapply H; [left; reflexivity|exact E].
  - apply IH. intros. eapply H. right. eauto.
Qed.

Lemma build_source_files_none b stats :
  (forall p st, In (p, st) stats -> fs_basename st <> b) ->
  dict_get b (build_source_files stats) = None.
Proof.
  intros H. unfold build_source_files. rewrite build_source_files_get. simpl.
  induction stats as [|[p st] stats IH]; simpl; [reflexivity|].
  rewrite last_entry_eq.
  destruct (str_eqb (fs_basename st) b) eqn:E.
  - apply str_eqb_eq in E. exfalso. eapply H; [left; reflexivity|exact E].
  - apply IH. intros. eapply H. right. eauto.
Qed.

Lemma stats_of_In files p st :
  In (p, st) (stats_of files) ->
  exists c, In (p, c) files /\ count_of c <> 0%nat /\ st = stat_of p c.
Proof.
  induction files as [|[p0 c0] files IH]; simpl; [contradiction|].
  destruct (Nat.eqb (count_of c0) 0) eqn:E.
  - intros H. destruct (IH H) as (c & I & N & S). eauto.
  - apply Nat.eqb_neq in E. intros [H|H].
    + inversion H; subst. eauto.
    + destruct (IH H) as (c & I & N & S). eauto.
Qed.

Lemma stats_of_app f1 f2 : stats_of (f1 ++ f2) = stats_of f1 ++ stats_of f2.
Proof.
  induction f1 as [|[p c] f1 IH]; simpl; [reflexivity|].
  destruct (Nat.eqb (count_of c) 0); simpl; rewrite IH; reflexivity.
Qed.

(* ================================================================= *)
(** ** Further facts used by the properties *)

Lemma contains_eq m s :
  contains m s =
  (startswith m s || match s with [] => false | _ :: s' => contains m s' end)%bool.
Proof. destruct s; reflexivity. Qed.

Lemma contains_infix m : forall s, infix_of m s -> contains m s = true.
Proof.
  intros s (pre & post & ->). induction pre as [|c pre IH].
  - simpl app. rewrite contains_eq.
    replace (startswith m (m ++ post)) with true; [reflexivity|].
    symmetry. apply startswith_app. eauto.
  - simpl. rewrite IH. apply orb_true_r.
Qed.

Lemma contains_true m : forall s, contains m s = true -> infix_of m s.
Proof.
  induction s as [|c s IH]; rewrite contains_eq; intros H.
  - rewrite orb_false_r in H. apply startswith_app in H. destruct H as [post H].
    exists [], post. exact H.
  - apply orb_prop in H. destruct H as [H|H].
    + apply startswith_app in H. destruct H as [post H]. exists [], post. exact H.
    + destruct (IH H) as (pre & post & ->). exists (c :: pre), post. reflexivity.
Qed.

Lemma strip_spec s :
  exists a b,
    s = a ++ strip s ++ b /\
    forallb is_space a = true /\ forallb is_space b = true.
Proof.
  unfold strip.
  exists (take_while is_space s),
    (rev (take_while is_space (rev (drop_while is_space s)))).
  split; [|split].
  - rewrite <- rev_app_distr, take_drop_while, rev_involutive.
    symmetry. apply take_drop_while.
  - apply take_while_all.
  - apply forallb_forall. intros c Hc. apply in_rev in Hc.
    pose proof (take_while_all is_space (rev (drop_while is_space s))) as T.
    rewrite forallb_forall in T. auto.
Qed.

Lemma filter_firstn A (f : A -> bool) : forall n l,
  exists m, filter f (firstn n l) = firstn m (filter f l).
Proof.
  induction n as [|n IH]; intros l.
  - exists 0%nat. reflexivity.
  - destruct l as [|x l]; [exists 0%nat; reflexivity|].
    destruct (IH l) as [m E]. simpl. destruct (f x).
    + exists (S m). simpl. rewrite E. reflexivity.
    + exists m. exact E.
Qed.

Lemma Forall_slice_sort A K (key : A -> K) ltb (P : A -> Prop) k l :
  Forall P l -> Forall P (py_slice_to k (sort_desc key ltb l)).
Proof.
  intros F. destruct (py_slice_to_firstn k (sort_desc key ltb l)) as [n ->].
  rewrite Forall_forall in *. intros x Hx. apply F.
  apply In_firstn in Hx.
  eapply Permutation_in; [apply sort_desc_perm|exact Hx].
Qed.

Lemma length_sort_desc A K (key : A -> K) ltb l :
  length (sort_desc key ltb l) = length l.
Proof. apply Permutation_length, sort_desc_perm. Qed.

Lemma keys_dict_set V k (v : V) : forall d,
  map fst (dict_set k v d) =
  match dict_get k d with
  | Some _ => map fst d
  | None => map fst d ++ [k]
  end.
Proof.
  induction d as [|[k0 v0] d IH]; simpl; [reflexivity|].
  destruct (str_eqb k0 k) eqn:E0; simpl; [reflexivity|].
  rewrite IH. destruct (dict_get k d); reflexivity.
Qed.

Lemma NoDup_snoc A (x : A) l : NoDup l -> ~ In x l -> NoDup (l ++ [x]).
Proof.
  intros N H. apply NoDup_rev in N. rewrite <- (rev_involutive (l ++ [x])).
  apply NoDup_rev. rewrite rev_app_distr. simpl. constructor; auto.
  rewrite <- in_rev. exact H.
Qed.

Lemma In_dict_set V k (v : V) k' v' : forall d,
  In (k', v') (dict_set k v d) -> (k', v') = (k, v) \/ In (k', v') d.
Proof.
  induction d as [|[k0 v0] d IH]; simpl.
  - intros [H|[]]. left. symmetry. exact H.
  - destruct (str_eqb k0 k) eqn:E; simpl.
    + apply str_eqb_eq in E. subst. intros [H|H]; auto.
    + intros [H|H]; auto. destruct (IH H); auto.
Qed.

Lemma build_source_files_NoDup stats : NoDup (map fst (build_source_files stats)).
Proof.
  unfold build_source_files.
  assert (G : forall acc, NoDup (map fst acc) ->
                NoDup (map fst (fold_left add_source_file stats acc))).
  { induction stats as [|[p st] stats IH]; intros acc N; simpl; [exact N|].
    apply IH. unfold add_source_file. simpl. rewrite keys_dict_set.
    destruct (dict_get (fs_basename st) acc) eqn:E; [exact N|].
    apply NoDup_snoc; [exact N|]. apply dict_get_None. exact E. }
  apply G. constructor.
Qed.

Lemma build_source_files_In stats b e :
  In (b, e) (build_source_files stats) ->
  exists p st, In (p, st) stats /\ b = fs_basename st /\ e = entry_of st.
Proof.
  unfold build_source_files.
  assert (G : forall acc,
             In (b, e) (fold_left add_source_file stats acc) ->
             In (b, e) acc \/
             exists p st, In (p, st) stats /\ b = fs_basename st /\ e = entry_of st).
  { induction stats as [|[p st] stats IH]; intros acc H; simpl in H; [auto|].
    apply IH in H. destruct H as [H|(p' & st' & I & E1 & E2)].
    - unfold add_source_file in H. simpl in H. apply In_dict_set in H.
      destruct H as [H|H]; [|auto]. inversion H; subst.
      right. exists p, st. simpl. auto.
    - right. exists p', st'. simpl. auto. }
  intros H. apply G in H. destruct H as [[]|H]. exact H.
Qed.

Lemma stats_of_absent files p c :
  NoDup (map fst files) -> In (p, c) files -> count_of c = 0%nat ->
  dict_get p (stats_of files) = None.
Proof.
  intros N I Z. apply dict_get_None. intros H.
  induction files as [|[p0 c0] files IH]; simpl in *; [contradiction|].
  inversion N as [|? ? Np N']; subst.
  destruct I as [I|I].
  - inversion I; subst. rewrite Z in H. simpl in H.
    apply stats_of_keys in H. contradiction.
  - destruct (Nat.eqb (count_of c0) 0); [auto|].
    simpl in H. destruct H as [H|H]; [|auto].
    subst. apply Np. apply (in_map fst) in I. exact I.
Qed.

Lemma get_statistics_total self now :
  match queries self with
  | [] => get_statistics self now = Ok None
  | _ :: _ =>
      get_statistics self now =
      Ok (Some {| total_slow_queries := length (queries self);
                  unique_query_types := length (query_groups self);
                  files_processed := length (file_list self);
                  source_files := build_source_files (file_stats self);
                  total_execution_time := py_sum (map execution_time (queries self));
                  average_execution_time :=
                    (inject_Z (py_sum (map execution_time (queries self))) /
                     inject_Z (Z.of_nat (length (queries self))))%Q;
                  max_execution_time :=
                    fold_left Z.max (tl (map execution_time (queries self)))
                      (hd 0 (map execution_time (queries self)));
                  min_execution_time :=
                    fold_left Z.min (tl (map execution_time (queries self)))
                      (hd 0 (map execution_time (queries self)));
                  analysis_timestamp := now |})
  end.
Proof.
  unfold get_statistics, py_truediv.
  destruct (queries self) as [|q l]; [reflexivity|].
  cbn [map length py_max py_min hd tl].
  destruct (Z.of_nat (S (length (map execution_time l))) =? 0) eqn:Z0;
    [apply Z.eqb_eq in Z0; lia|].
  cbn [bind]. rewrite length_map. reflexivity.
Qed.

(* ================================================================= *)
(** ** Properties of the engine *)

Ltac sample_reachable :=
  apply (@parse_log_files_reachable (__init__ $"logs") sample_files);
  [apply reach_init | vm_compute; reflexivity].



(** The claim C2 as stated fails for a negative [k]: with three records,
    [get_top_k_by_time] at [k = -1] returns two of them, which is not
    [min(k, 3)]. *)
Lemma top_k_negative_k_length :
  length (queries sample_state) = 3%nat /\
  length (get_top_k_by_time sample_state (-1)) = 2%nat /\
  Z.of_nat (length (get_top_k_by_time sample_state (-1)))
  <> Z.min (-1) (Z.of_nat (length (queries sample_state))).
Proof. vm_compute. repeat split; congruence. Qed.

(** C2 (amended): in every reachable state and for every [k], the list of
    [get_top_k_by_hits] is in descending order of [(hits, total_time)], the
    list of [get_top_k_by_total_time] in descending order of [total_time],
    the list of [get_top_k_by_time] in descending order of
    [execution_time], records with equal times keeping their insertion
    order (the list is a prefix of a stable rearrangement of [queries]).
    For [k >= 0] each list has [min(k, available)] entries; for [k < 0] the
    slice drops the last [-k] entries, leaving [max(0, available + k)].
    Nothing is padded, and a [k] beyond what is available is no error. *)
Theorem rankings_sorted_and_truncated self k :
  reachable self ->
  (exists res,
      get_top_k_by_hits self k = Ok res /\
      StronglySorted hits_order res /\
      slice_length k (length (query_groups self)) (length res)) /\
  (exists res,
      get_top_k_by_total_time self k = Ok res /\
      StronglySorted total_time_order res /\
      slice_length k (length (query_groups self)) (length res)) /\
  (StronglySorted time_order (get_top_k_by_time self k) /\
   slice_length k (length (queries self)) (length (get_top_k_by_time self k)) /\
   (forall t, exists m,
       filter (has_time t) (get_top_k_by_time self k) =
       firstn m (filter (has_time t) (queries self))) /\
   exists full n,
     get_top_k_by_time self k = firstn n full /\
     Permutation full (queries self) /\
     StronglySorted time_order full /\
     forall t, filter (has_time t) full = filter (has_time t) (queries self)).
Proof.
  intros R. destruct (reachable_summaries R) as (gs & E & L & _).
  assert (SH : StronglySorted hits_order (sort_desc hits_key pair_ltb gs)).
  { eapply StronglySorted_weaken;
      [|apply (sort_desc_sorted hits_key pair_ltb pair_ltb_asym pair_not_below_trans)].
    intros a b H. unfold not_below in H. apply pair_ltb_ge in H. exact H. }
  assert (ST : StronglySorted total_time_order (sort_desc total_time Z.ltb gs)).
  { eapply StronglySorted_weaken;
      [|apply (sort_desc_sorted total_time Z.ltb Z_ltb_asym Z_not_below_trans)].
    intros a b H. unfold not_below in H. apply Z.ltb_ge in H.
    unfold total_time_order. lia. }
  assert (SQ : StronglySorted time_order
                 (sort_desc execution_time Z.ltb (queries self))).
  { eapply StronglySorted_weaken;
      [|apply (sort_desc_sorted execution_time Z.ltb Z_ltb_asym Z_not_below_trans)].
    intros a b H. unfold not_below in H. apply Z.ltb_ge in H.
    unfold time_order. lia. }
  assert (Stab : forall t,
             filter (has_time t) (sort_desc execution_time Z.ltb (queries self))
             = filter (has_time t) (queries self)).
  { intros t. apply sort_desc_stable. unfold has_time. intros x y Hx Hy.
    apply Z.eqb_eq in Hx, Hy. apply Z.ltb_ge. lia. }
  split; [|split].
  - unfold get_top_k_by_hits. rewrite E. simpl. eexists. split; [reflexivity|].
    split.
    + destruct (py_slice_to_firstn k (sort_desc hits_key pair_ltb gs)) as [n ->].
      apply StronglySorted_firstn, SH.
    + unfold slice_length. rewrite <- L, <- (length_sort_desc hits_key pair_ltb gs).
      apply py_slice_to_length.
  - unfold get_top_k_by_total_time. rewrite E. simpl. eexists.
    split; [reflexivity|]. split.
    + destruct (py_slice_to_firstn k (sort_desc total_time Z.ltb gs)) as [n ->].
      apply StronglySorted_firstn, ST.
    + unfold slice_length. rewrite <- L, <- (length_sort_desc total_time Z.ltb gs).
      apply py_slice_to_length.
  - unfold get_top_k_by_time.
    destruct (py_slice_to_firstn k (sort_desc execution_time Z.ltb (queries self)))
      as [n En].
    split; [rewrite En; apply StronglySorted_firstn, SQ|].
    split.
    { unfold slice_length.
      rewrite <- (length_sort_desc execution_time Z.ltb (queries self)).
      apply py_slice_to_length. }
    split.
    { intros t. rewrite En.
      destruct (filter_firstn (has_time t) n
                  (sort_desc execution_time Z.ltb (queries self))) as [m Em].
      exists m. rewrite Em, Stab. reflexivity. }
    exists (sort_desc execution_time Z.ltb (queries self)), n.
    split; [exact En|]. split; [apply sort_desc_perm|]. split; [exact SQ|exact Stab].
Qed.

Lemma rankings_sorted_and_truncated_witness :
  (exists res,
      get_top_k_by_hits sample_state 1 = Ok res /\
      StronglySorted hits_order res /\
      slice_length 1 (length (query_groups sample_state)) (length res)) /\
  (exists res,
      get_top_k_by_total_time sample_state 1 = Ok res /\
      StronglySorted total_time_order res /\
      slice_length 1 (length (query_groups sample_state)) (length res)) /\
  (StronglySorted time_order (get_top_k_by_time sample_state 1) /\
   slice_length 1 (length (queries sample_state))
     (length (get_top_k_by_time sample_state 1)) /\
   (forall t, exists m,
       filter (has_time t) (get_top_k_by_time sample_state 1) =
       firstn m (filter (has_time t) (queries sample_state))) /\
   exists full n,
     get_top_k_by_time sample_state 1 = firstn n full /\
     Permutation full (queries sample_state) /\
     StronglySorted time_order full /\
     forall t, filter (has_time t) full = filter (has_time t) (queries sample_state)).
Proof.
  apply (@rankings_sorted_and_truncated sample_state 1). sample_reachable.
Defined.


(** The claim C3 as stated fails: the classifier looks for the text
    [from] anywhere, also at the end of a longer word.  On the fragment
    below it answers [as], while the first identifier after a [from] that
    starts at a word boundary is [orders]. *)
Lemma classifier_ignores_word_boundary :
  let q := $"select id, t.valid_from as vf from orders" in
  _extract_operation_and_table q = ($"SELECT", $"as") /\
  classify true q = ($"SELECT", $"orders") /\
  _extract_operation_and_table q <> classify true q.
Proof. vm_compute. repeat split; congruence. Qed.

(** C3 (amended): on every fragment the classifier answers as [classify]
    without the word boundary.  A lower-cased fragment that starts with
    [select] gives [SELECT] and the maximal run of word characters found
    at the leftmost place where the text [from], one or more blanks and a
    word character follow one another, wherever that place is, or
    [unknown] when there is none; likewise [INSERT] after [insert] blanks
    [into] blanks, [UPDATE] after [update] blanks, [DELETE] after [delete]
    blanks [from] blanks; anything else gives [OTHER] and [unknown].  The
    second part says what [table_after] finds for the keywords of the
    four patterns. *)
Theorem classifier_first_keyword_anywhere q :
  _extract_operation_and_table q = classify false q /\
  Forall
    (fun kws =>
       forall s,
         leftmost_occurrence kws s (table_after false kws s) \/
         (no_occurrence kws s /\ table_after false kws s = $"unknown"))
    classifier_keywords.
Proof.
  split.
  - unfold _extract_operation_and_table, classify,
      from_re, insert_re, update_re, delete_re.
    rewrite !table_of_search by reflexivity.
    reflexivity.
  - unfold classifier_keywords.
    repeat (apply Forall_cons;
            [intros s; apply table_after_spec; reflexivity|]).
    apply Forall_nil.
Qed.

(** The classifier on the three fragments of the specification's
    round-trip examples. *)
Example classifier_examples :
  _extract_operation_and_table $"SELECT * FROM Orders WHERE id=1"
  = ($"SELECT", $"orders") /\
  _extract_operation_and_table $"INSERT INTO Users (a) VALUES (1)"
  = ($"INSERT", $"users") /\
  _extract_operation_and_table $"SHOW TABLES" = ($"OTHER", $"unknown").
Proof. vm_compute. repeat split; reflexivity. Qed.

(** C4: the boundary example yields exactly one record, of 1500 ms on
    table [foo]; a content without the marker [SlowQuery:] yields no match
    and leaves the analyzer as it is; the pattern is matched against the
    whole content and its two lazy spans take any text, line ends
    included: an entry is found whatever stands in them, as in the entry
    spread over three lines. *)
Theorem extractor_boundary :
  (forall self file_path,
      exists self' r,
        _parse_single_file self file_path example_line = Ok (self', 1%nat) /\
        queries self' = queries self ++ [r] /\
        execution_time r = 1500 /\ table r = $"foo") /\
  (forall self file_path content,
      contains $"SlowQuery:" content = false ->
      findall pattern content = [] /\
      _parse_single_file self file_path content = Ok (self, 0%nat)) /\
  (forall pre ts mid1 ms mid2 q rest,
      is_timestamp ts = true ->
      ms <> [] -> forallb is_digit ms = true ->
      forallb not_quote q = true ->
      findall pattern
        (pre ++
         (ts ++ mid1 ++ $"SlowQuery: " ++ ms ++ $" milliseconds. SQL: '"
             ++ mid2 ++ $"wrapping " ++ q ++ $"'") ++
         rest) <> []) /\
  (In "010"%char wrapped_entry /\
   findall pattern wrapped_entry =
   [[$"2024-01-01 10:00:02.500"; $"1500"; $"SELECT id FROM foo WHERE x = 2"]]).
Proof.
  split; [|split; [|split]].
  - intros self file_path.
    assert (F : findall pattern example_line =
                [[$"2024-01-01 10:00:00.123"; $"1500"; $"select * from foo"]])
      by (vm_compute; reflexivity).
    rewrite parse_single_file_eq. unfold extract_records. rewrite F.
    cbn [map_result].
    destruct (make_query_info file_path
                [$"2024-01-01 10:00:00.123"; $"1500"; $"select * from foo"])
      as [r|e] eqn:E; vm_compute in E; [|discriminate].
    inversion E; subst. cbn [bind]. do 2 eexists.
    split; [reflexivity|].
    unfold set_file_stats. cbn [queries]. rewrite queries_ingest_all.
    split; [reflexivity|]. split; reflexivity.
  - intros self file_path content H.
    assert (F : findall pattern content = []).
    { apply no_marker_no_match. intros I. apply contains_infix in I. congruence. }
    split; [exact F|].
    rewrite parse_single_file_eq. unfold extract_records. rewrite F. reflexivity.
  - intros pre ts mid1 ms mid2 q rest T N D Q.
    apply findall_nonempty. eapply match_at_complete.
    apply pattern_intro; eassumption.
  - split; [vm_compute; tauto|vm_compute; reflexivity].
Qed.

Lemma extractor_boundary_witness :
  findall pattern quiet_log = [] /\
  _parse_single_file sample_state $"repository.log" quiet_log
  = Ok (sample_state, 0%nat).
Proof.
  apply (proj1 (proj2 extractor_boundary)). vm_compute. reflexivity.
Defined.

(** C6: in every reachable state each record has [query_type] equal to
    [operation], a blank and [table], with [operation] one of the five
    tags and [table] either [unknown] or a non-empty run of [a-z0-9_];
    each record filed under a key of [query_groups] has that key as its
    [query_type] and is one of [queries]; and a further file only appends:
    the records are a prefix of the new ones and every group a prefix of
    the new group, so no existing record changes.  The ranking and
    statistics functions take the state and return values; they have no
    way to change it. *)
Theorem records_well_formed_and_stable self :
  reachable self ->
  Forall wf_record (queries self) /\
  (forall k g r,
      In (k, g) (query_groups self) -> In r g ->
      query_type r = k /\ In r (queries self) /\ wf_record r) /\
  (forall file_path content self' n,
      _parse_single_file self file_path content = Ok (self', n) ->
      exists recs,
        queries self' = queries self ++ recs /\
        forall k g,
          In (k, g) (query_groups self) ->
          In (k, g ++ members k recs) (query_groups self')).
Proof.
  intros R. pose proof (reachable_wf R) as W.
  pose proof (reachable_grouped R) as G.
  split; [exact W|]. split.
  - intros k g r Hg Hr. destruct (@grouped_In _ _ _ _ G Hg) as [-> _].
    apply members_In in Hr. destruct Hr as [T I].
    split; [exact T|]. split; [exact I|].
    rewrite Forall_forall in W. apply W. exact I.
  - intros file_path content self' n H.
    assert (R' : reachable self') by (eapply reach_file; eauto).
    pose proof (reachable_grouped R') as G'.
    apply parse_single_file_queries in H.
    destruct H as (recs & _ & _ & Q & _). exists recs. split; [exact Q|].
    intros k g Hg. destruct (@grouped_In _ _ _ _ G Hg) as [-> N].
    destruct G' as [_ G']. specialize (G' k). rewrite Q, members_app in G'.
    apply dict_get_In. rewrite G'.
    destruct (members k (queries self)); [congruence|reflexivity].
Qed.

Lemma records_well_formed_and_stable_witness :
  Forall wf_record (queries sample_state) /\
  (forall k g r,
      In (k, g) (query_groups sample_state) -> In r g ->
      query_type r = k /\ In r (queries sample_state) /\ wf_record r) /\
  (forall file_path content self' n,
      _parse_single_file sample_state file_path content = Ok (self', n) ->
      exists recs,
        queries self' = queries sample_state ++ recs /\
        forall k g,
          In (k, g) (query_groups sample_state) ->
          In (k, g ++ members k recs) (query_groups self')).
Proof.
  apply (@records_well_formed_and_stable sample_state). sample_reachable.
Defined.

(** The claim C7 as stated fails: the record keeps the fragment without
    the blanks at its ends.  The capture below is [ select 1 ], the stored
    text is [select 1]. *)
Lemma stored_query_is_not_raw_capture :
  map (group 3) (findall pattern padded_entry) = [$" select 1 "] /\
  match extract_records $"repository.log" padded_entry with
  | Ok recs => map query recs
  | Raise _ => []
  end = [$"select 1"].
Proof. vm_compute. split; reflexivity. Qed.

(** C7 (amended): for every content, the records [_parse_single_file]
    appends correspond one to one, in order, to the matches of the
    pattern; the third group of a match is the text between [wrapping ]
    and the next single quote, and the stored [query] is that text with
    the blanks at its two ends stripped, everything between them
    unchanged. *)
Theorem stored_query_is_stripped_capture self file_path content :
  exists self' recs,
    _parse_single_file self file_path content = Ok (self', length recs) /\
    queries self' = queries self ++ recs /\
    Forall2
      (fun caps r =>
         let raw := group 3 caps in
         forallb not_quote raw = true /\
         infix_of ($"wrapping " ++ raw ++ $"'") content /\
         query r = strip raw /\
         exists a b,
           raw = a ++ query r ++ b /\
           forallb is_space a = true /\ forallb is_space b = true)
      (findall pattern content) recs.
Proof.
  destruct (parse_single_file_total self file_path content) as (recs & _ & B & P).
  eexists. exists recs. split; [exact P|]. split.
  - destruct recs; [rewrite app_nil_r; reflexivity|].
    unfold set_file_stats. cbn [queries]. apply queries_ingest_all.
  - pose proof (findall_pattern_wf content) as W. clear P.
    revert W. induction B as [|caps r ms recs Hb B IH]; intros W; constructor.
    + inversion W as [|? ? Wc _]; subst.
      destruct Wc as (ts & tm & q & -> & _ & _ & _ & Q & _ & I).
      destruct Hb as (_ & _ & _ & S & _). unfold group in *. simpl in *.
      repeat split; auto. rewrite S. apply strip_spec.
    + apply IH. inversion W; auto.
Qed.


Lemma total_count_app f1 f2 :
  total_count (f1 ++ f2) = (total_count f1 + total_count f2)%nat.
Proof.
  induction f1 as [|[p c] f1 IH]; simpl; [reflexivity|]. rewrite IH. lia.
Qed.

Lemma count_of_empty content :
  content = [] \/ findall pattern content = [] -> count_of content = 0%nat.
Proof.
  unfold count_of. intros [-> | ->]; reflexivity.
Qed.

(** C9: a file whose content is empty or has no match makes
    [_parse_single_file] return 0 and the analyzer it was given, so the
    records, the groups and [file_stats] are unchanged.  After a run over
    distinct paths that contains such a file, [file_stats] has no entry
    for its path and every entry of [source_files] comes from a file with
    at least one match (so the base name of the file is absent unless a
    file with matches shares it), while [files_processed] counts all the
    files of the list. *)
Theorem file_without_matches_changes_nothing li files file_path content now :
  NoDup (map fst files) ->
  In (file_path, content) files ->
  content = [] \/ findall pattern content = [] ->
  (forall self, _parse_single_file self file_path content = Ok (self, 0%nat)) /\
  exists self,
    parse_log_files (__init__ li) files = Ok self /\
    dict_get file_path (file_stats self) = None /\
    length (file_list self) = length files /\
    forall s,
      get_statistics self now = Ok (Some s) ->
      files_processed s = length files /\
      (forall b e,
          In (b, e) (source_files s) ->
          exists p c,
            In (p, c) files /\ count_of c <> 0%nat /\
            b = basename p /\ e = entry_of (stat_of p c)) /\
      ((forall p c,
           In (p, c) files -> count_of c <> 0%nat ->
           basename p <> basename file_path) ->
       dict_get (basename file_path) (source_files s) = None).
Proof.
  intros N I Z. split.
  - intros self. rewrite parse_single_file_eq. unfold extract_records.
    destruct Z as [-> | ->]; reflexivity.
  - apply count_of_empty in Z.
    destruct (@parse_log_files_run li _ N) as (self & P & _ & _ & L & S).
    exists self. split; [exact P|]. split.
    { rewrite S. eapply stats_of_absent; eauto. }
    split; [rewrite L; apply length_map|].
    intros s G. pose proof (get_statistics_total self now) as T.
    destruct (queries self); rewrite T in G; [discriminate|].
    inversion G; subst s; clear G. cbn [files_processed source_files].
    rewrite L, S, length_map. split; [reflexivity|]. split.
    + intros b e H. apply build_source_files_In in H.
      destruct H as (p & st & Hs & -> & ->).
      apply stats_of_In in Hs. destruct Hs as (c & Hc & Nz & ->).
      exists p, c. auto.
    + intros H. apply build_source_files_none. intros p st Hs.
      apply stats_of_In in Hs. destruct Hs as (c & Hc & Nz & ->).
      simpl. eapply H; eauto.
Qed.

Lemma file_without_matches_changes_nothing_witness :
  (forall self,
      _parse_single_file self $"logs/repository2.log" quiet_log = Ok (self, 0%nat)) /\
  exists self,
    parse_log_files (__init__ $"logs")
      [($"logs/repository.log", sample_log); ($"logs/repository2.log", quiet_log)]
    = Ok self /\
    dict_get $"logs/repository2.log" (file_stats self) = None /\
    length (file_list self) = 2%nat /\
    forall s,
      get_statistics self [] = Ok (Some s) ->
      files_processed s = 2%nat /\
      (forall b e,
          In (b, e) (source_files s) ->
          exists p c,
            In (p, c)
              [($"logs/repository.log", sample_log);
               ($"logs/repository2.log", quiet_log)] /\
            count_of c <> 0%nat /\
            b = basename p /\ e = entry_of (stat_of p c)) /\
      ((forall p c,
           In (p, c)
             [($"logs/repository.log", sample_log);
              ($"logs/repository2.log", quiet_log)] ->
           count_of c <> 0%nat ->
           basename p <> basename $"logs/repository2.log") ->
       dict_get (basename $"logs/repository2.log") (source_files s) = None).
Proof.
  apply (@file_without_matches_changes_nothing $"logs"
           [($"logs/repository.log", sample_log);
            ($"logs/repository2.log", quiet_log)]
           $"logs/repository2.log" quiet_log []).
  - constructor; [simpl; intros [H|[]]; vm_compute in H; discriminate H|].
    constructor; [simpl; tauto|constructor].
  - simpl. right. left. reflexivity.
  - right. vm_compute. reflexivity.
Defined.

(** C10: [source_files] has one entry per base name.  After a run over
    distinct paths, the entry under the base name of a file with matches
    is the one of that file, whatever files with the same base name were
    processed before it, provided none with matches comes after it: the
    later file overwrites the earlier ones.  [total_slow_queries] still
    counts the records of all files. *)
Theorem source_files_keyed_by_basename li files1 file_path content files2 now :
  NoDup (map fst (files1 ++ (file_path, content) :: files2)) ->
  count_of content <> 0%nat ->
  (forall p c,
      In (p, c) files2 -> count_of c <> 0%nat ->
      basename p <> basename file_path) ->
  exists self s,
    parse_log_files (__init__ li) (files1 ++ (file_path, content) :: files2)
    = Ok self /\
    get_statistics self now = Ok (Some s) /\
    dict_get (basename file_path) (source_files s) =
      Some {| se_queries := count_of content; se_file_size := length content |} /\
    NoDup (map fst (source_files s)) /\
    total_slow_queries s =
      total_count (files1 ++ (file_path, content) :: files2).
Proof.
  intros N Nz Later.
  destruct (@parse_log_files_run li _ N) as (self & P & _ & Q & L & S).
  exists self. pose proof (get_statistics_total self now) as T.
  rewrite total_count_app in Q. simpl in Q.
  destruct (queries self) as [|q l] eqn:E; [simpl in Q; lia|].
  eexists. split; [exact P|]. split; [exact T|].
  cbn [source_files total_slow_queries]. split; [|split].
  - rewrite S, stats_of_app. simpl.
    destruct (Nat.eqb (count_of content) 0) eqn:Z;
      [apply Nat.eqb_eq in Z; contradiction|].
    apply (@build_source_files_last (stats_of files1) file_path
             (stat_of file_path content) (stats_of files2)).
    intros p' st' Hs. apply stats_of_In in Hs.
    destruct Hs as (c' & Hc & Nz' & ->). simpl. eapply Later; eauto.
  - apply build_source_files_NoDup.
  - rewrite total_count_app. simpl. exact Q.
Qed.

Lemma source_files_keyed_by_basename_witness :
  exists self s,
    parse_log_files (__init__ $"logs")
      ([($"a/repository.log", example_line)] ++
       ($"b/repository.log", sample_log) :: [])
    = Ok self /\
    get_statistics self [] = Ok (Some s) /\
    dict_get (basename $"b/repository.log") (source_files s) =
      Some {| se_queries := count_of sample_log;
              se_file_size := length sample_log |} /\
    NoDup (map fst (source_files s)) /\
    total_slow_queries s =
      total_count ([($"a/repository.log", example_line)] ++
                   ($"b/repository.log", sample_log) :: []).
Proof.
  apply (@source_files_keyed_by_basename $"logs"
           [($"a/repository.log", example_line)]
           $"b/repository.log" sample_log [] []).
  - constructor; [simpl; intros [H|[]]; vm_compute in H; discriminate H|].
    constructor; [simpl; tauto|constructor].
  - vm_compute. discriminate.
  - simpl. tauto.
Defined.

(** The two files of the sample share the base name [repository.log]: the
    breakdown has the single entry of the second file (3 records), while
    the total counts the 4 records of both. *)
Example same_basename_run :
  match parse_log_files (__init__ $"logs")
          [($"a/repository.log", example_line); ($"b/repository.log", sample_log)]
  with
  | Ok self =>
      match get_statistics self [] with
      | Ok (Some s) =>
          source_files s = [($"repository.log", {| se_queries := 3; se_file_size := 319 |})]
          /\ total_slow_queries s = 4%nat /\ files_processed s = 2%nat
      | _ => False
      end
  | Raise _ => False
  end.
Proof. vm_compute. repeat split; reflexivity. Qed.

(* ================================================================= *)
(** ** Further properties: groups and rankings *)

Lemma summarize_fields k g s :
  summarize k g = Ok s ->
  g_query_type s = k /\
  hits s = Z.of_nat (length g) /\
  total_time s = sum_list (map execution_time g) /\
  exists q rest,
    g = q :: rest /\ sample_query s = query_preview q /\
    sample_timestamp s = timestamp q.
Proof.
  unfold summarize. intros H.
  destruct (py_truediv _ _) as [avg|]; cbn [bind] in H; [|discriminate].
  destruct (py_max _) as [mx|]; cbn [bind] in H; [|discriminate].
  destruct (py_min _) as [mn|]; cbn [bind] in H; [|discriminate].
  destruct g as [|q rest]; cbn [py_first bind] in H; [discriminate|].
  inversion H; subst; clear H.
  cbn [g_query_type hits total_time sample_query sample_timestamp].
  rewrite py_sum_eq.
  repeat split; auto. exists q, rest. auto.
Qed.

Lemma summaries_Forall2 : forall d gs,
  summaries d = Ok gs ->
  Forall2 (fun kg s => summarize (fst kg) (snd kg) = Ok s) d gs.
Proof.
  induction d as [|[k g] d IH]; simpl; intros gs H.
  - inversion H; subst. constructor.
  - destruct (summarize k g) as [s|] eqn:E; cbn [bind] in H; [|discriminate].
    destruct (summaries d) as [gs'|]; cbn [bind] in H; [|discriminate].
    inversion H; subst. constructor; auto.
Qed.

Lemma members_head k : forall l q rest,
  members k l = q :: rest ->
  exists before after,
    l = before ++ q :: after /\ query_type q = k /\
    Forall (fun r => query_type r <> k) before.
Proof.
  induction l as [|x l IH]; intros q rest H; [discriminate|].
  unfold members in H. simpl in H.
  destruct (str_eqb (query_type x) k) eqn:E.
  - inversion H; subst. apply str_eqb_eq in E.
    exists [], l. repeat split; auto.
  - apply str_eqb_neq in E. destruct (IH _ _ H) as (b & a & -> & T & F).
    exists (x :: b), a. repeat split; auto.
Qed.

Lemma py_slice_to_all A k (l : list A) : covers k (length l) -> py_slice_to k l = l.
Proof.
  unfold covers, py_slice_to. intros H.
  destruct (0 <=? k) eqn:E; [|apply Z.leb_gt in E; lia].
  apply firstn_all2. lia.
Qed.

Lemma sum_list_perm l1 l2 : Permutation l1 l2 -> sum_list l1 = sum_list l2.
Proof.
  induction 1; simpl; try lia.
Qed.

Lemma sum_list_map_add A (f g : A -> Z) l :
  sum_list (map (fun x => f x + g x) l) = sum_list (map f l) + sum_list (map g l).
Proof. induction l; simpl; lia. Qed.

Lemma sum_indicator x c : forall ks,
  NoDup ks -> In x ks ->
  sum_list (map (fun k => if str_eqb x k then c else 0) ks) = c.
Proof.
  induction ks as [|k ks IH]; simpl; intros N I; [contradiction|].
  inversion N as [|? ? Nk N']; subst.
  destruct (str_eqb x k) eqn:E.
  - apply str_eqb_eq in E. subst k.
    assert (Z0 : sum_list (map (fun k => if str_eqb x k then c else 0) ks) = 0).
    { clear IH N N' I. induction ks as [|k ks IH]; simpl; [reflexivity|].
      destruct (str_eqb x k) eqn:E.
      - apply str_eqb_eq in E. subst. exfalso. apply Nk. left. reflexivity.
      - rewrite IH; [reflexivity|]. intros H. apply Nk. right. exact H. }
    lia.
  - apply str_eqb_neq in E. destruct I as [I|I]; [congruence|].
    rewrite IH; auto.
Qed.

Lemma sum_ones A (l : list A) :
  sum_list (map (fun _ => 1) l) = Z.of_nat (length l).
Proof.
  induction l as [|a l IH]; [reflexivity|].
  cbn [map sum_list fold_right length]. fold (sum_list (map (fun _ : A => 1) l)).
  rewrite IH. lia.
Qed.

(** The groups split the records: a weight summed group by group is the
    weight summed over all records. *)
Lemma members_partition (w : query_info -> Z) ks : forall l,
  NoDup ks -> (forall q, In q l -> In (query_type q) ks) ->
  sum_list (map (fun k => sum_list (map w (members k l))) ks)
  = sum_list (map w l).
Proof.
  induction l as [|q l IH]; intros N C.
  - simpl. clear N C. induction ks; simpl; auto.
  - transitivity
      (sum_list (map (fun k => (if str_eqb (query_type q) k then w q else 0)
                               + sum_list (map w (members k l))) ks)).
    + f_equal. apply map_ext. intros k. unfold members. simpl.
      destruct (str_eqb (query_type q) k); reflexivity.
    + rewrite sum_list_map_add, IH, sum_indicator; auto.
      * apply C. left. reflexivity.
      * intros r Hr. apply C. right. exact Hr.
Qed.

Lemma grouped_cover l d q :
  grouped l d -> In q l -> In (query_type q) (map fst d).
Proof.
  intros [_ G] I. specialize (G (query_type q)).
  destruct (dict_get (query_type q) d) eqn:E.
  - apply dict_get_In in E. apply (in_map fst) in E. exact E.
  - exfalso. assert (M : In q (members (query_type q) l)).
    { unfold members. apply filter_In. split; [exact I|apply str_eqb_refl]. }
    destruct (members (query_type q) l); [contradiction|discriminate].
Qed.

(** The summaries of the groups of a reachable state, in the order of
    [query_groups]. *)
Lemma reachable_summaries_spec self :
  reachable self ->
  exists gs,
    summaries (query_groups self) = Ok gs /\
    map g_query_type gs = map fst (query_groups self) /\
    Forall (fun s =>
              hits s = Z.of_nat (length (members (g_query_type s) (queries self))) /\
              total_time s =
                sum_list (map execution_time (members (g_query_type s) (queries self))) /\
              sample_is_first (queries self) s) gs.
Proof.
  intros R. destruct (reachable_summaries R) as (gs & E & _ & _).
  pose proof (reachable_grouped R) as G.
  exists gs. split; [exact E|].
  apply summaries_Forall2 in E.
  assert (In_d : forall kg, In kg (query_groups self) ->
                   snd kg = members (fst kg) (queries self)).
  { intros [k g] I. simpl. eapply grouped_In; eauto. }
  clear G R. revert In_d. generalize dependent (query_groups self).
  intros d E. induction E as [|[k g] s d gs' Hs E IH]; intros In_d.
  - split; constructor.
  - destruct IH as [IH1 IH2]; [intros; apply In_d; right; auto|].
    simpl in Hs. apply summarize_fields in Hs.
    destruct Hs as (K & Hh & Ht & q & rest & Eg & Sq & St).
    pose proof (In_d (k, g) (or_introl eq_refl)) as Mg. simpl in Mg.
    split; [simpl; rewrite K, IH1; reflexivity|].
    constructor; [|exact IH2].
    rewrite K, <- Mg. split; [exact Hh|]. split; [exact Ht|].
    rewrite Eg in Mg. symmetry in Mg. apply members_head in Mg.
    destruct Mg as (b & a & L & T & F).
    exists b, q, a. rewrite K. auto.
Qed.

(** X1: the sample of a group is its earliest record.  In every reachable
    state, each summary that [get_top_k_by_hits] or
    [get_top_k_by_total_time] returns carries the preview and the
    timestamp of the first record of [queries] that has the group's
    [query_type]. *)
Theorem group_sample_is_first_record self k :
  reachable self ->
  exists by_hits by_total,
    get_top_k_by_hits self k = Ok by_hits /\
    get_top_k_by_total_time self k = Ok by_total /\
    Forall (sample_is_first (queries self)) by_hits /\
    Forall (sample_is_first (queries self)) by_total.
Proof.
  intros R. destruct (reachable_summaries_spec R) as (gs & E & _ & F).
  assert (F' : Forall (sample_is_first (queries self)) gs)
    by (eapply Forall_impl; [|exact F]; intros s H; apply H).
  unfold get_top_k_by_hits, get_top_k_by_total_time. rewrite E. simpl.
  do 2 eexists. split; [reflexivity|]. split; [reflexivity|].
  split; apply Forall_slice_sort; exact F'.
Qed.

Lemma group_sample_is_first_record_witness :
  exists by_hits by_total,
    get_top_k_by_hits sample_state 5 = Ok by_hits /\
    get_top_k_by_total_time sample_state 5 = Ok by_total /\
    Forall (sample_is_first (queries sample_state)) by_hits /\
    Forall (sample_is_first (queries sample_state)) by_total.
Proof.
  apply (@group_sample_is_first_record sample_state 5). sample_reachable.
Defined.

(** X2: the groups split the records.  In every reachable state, when [k]
    is at least the number of groups, the [hits] of the summaries of
    either ranking add up to the number of records and their
    [total_time] to the sum of all execution times, the figures
    [get_statistics] reports as [total_slow_queries] and
    [total_execution_time]. *)
Theorem rankings_add_up_to_totals self k :
  reachable self ->
  covers k (length (query_groups self)) ->
  exists by_hits by_total,
    get_top_k_by_hits self k = Ok by_hits /\
    get_top_k_by_total_time self k = Ok by_total /\
    sum_list (map hits by_hits) = Z.of_nat (length (queries self)) /\
    sum_list (map total_time by_hits)
      = sum_list (map execution_time (queries self)) /\
    sum_list (map hits by_total) = Z.of_nat (length (queries self)) /\
    sum_list (map total_time by_total)
      = sum_list (map execution_time (queries self)).
Proof.
  intros R C. destruct (reachable_summaries_spec R) as (gs & E & K & F).
  pose proof (reachable_grouped R) as G.
  assert (L : length gs = length (query_groups self)).
  { rewrite <- (length_map g_query_type gs), K. apply length_map. }
  assert (Hh : sum_list (map hits gs) = Z.of_nat (length (queries self))).
  { transitivity
      (sum_list (map (fun k => sum_list (map (fun _ => 1)
                                 (members k (queries self))))
                     (map g_query_type gs))).
    - rewrite map_map. f_equal. apply map_ext_in. intros s Hs.
      rewrite Forall_forall in F. destruct (F s Hs) as (-> & _).
      symmetry. apply sum_ones.
    - rewrite K, members_partition.
      + apply sum_ones.
      + apply G.
      + intros q. apply grouped_cover. exact G. }
  assert (Ht : sum_list (map total_time gs)
               = sum_list (map execution_time (queries self))).
  { transitivity
      (sum_list (map (fun k => sum_list (map execution_time
                                 (members k (queries self))))
                     (map g_query_type gs))).
    - rewrite map_map. f_equal. apply map_ext_in. intros s Hs.
      rewrite Forall_forall in F. destruct (F s Hs) as (_ & -> & _). reflexivity.
    - rewrite K. apply members_partition; [apply G|].
      intros q. apply grouped_cover. exact G. }
  unfold get_top_k_by_hits, get_top_k_by_total_time. rewrite E. simpl.
  do 2 eexists. split; [reflexivity|]. split; [reflexivity|].
  rewrite !py_slice_to_all
    by (unfold covers in *; rewrite length_sort_desc, L; exact C).
  rewrite <- Hh, <- Ht.
  repeat split; apply sum_list_perm, Permutation_map, sort_desc_perm.
Qed.

Lemma rankings_add_up_to_totals_witness :
  exists by_hits by_total,
    get_top_k_by_hits sample_state 10 = Ok by_hits /\
    get_top_k_by_total_time sample_state 10 = Ok by_total /\
    sum_list (map hits by_hits) = Z.of_nat (length (queries sample_state)) /\
    sum_list (map total_time by_hits)
      = sum_list (map execution_time (queries sample_state)) /\
    sum_list (map hits by_total) = Z.of_nat (length (queries sample_state)) /\
    sum_list (map total_time by_total)
      = sum_list (map execution_time (queries sample_state)).
Proof.
  apply (@rankings_add_up_to_totals sample_state 10).
  - sample_reachable.
  - vm_compute. discriminate.
Defined.

Lemma str_eqb_sym a b : str_eqb a b = str_eqb b a.
Proof.
  destruct (str_eqb a b) eqn:E.
  - apply str_eqb_eq in E. subst. symmetry. apply str_eqb_refl.
  - apply str_eqb_neq in E. symmetry. apply str_eqb_neq. congruence.
Qed.

Lemma existsb_keys V k : forall (d : list (str * V)),
  existsb (str_eqb k) (map fst d) =
  match dict_get k d with Some _ => true | None => false end.
Proof.
  induction d as [|[k' v] d IH]; simpl; [reflexivity|].
  rewrite (str_eqb_sym k k'). destruct (str_eqb k' k); simpl; auto.
Qed.

Lemma keys_dict_append_add V k (x : V) d :
  map fst (dict_append k x d) = add_key (map fst d) k.
Proof.
  rewrite keys_dict_append. unfold add_key. rewrite existsb_keys.
  destruct (dict_get k d); reflexivity.
Qed.

Lemma keys_ingest_all recs : forall self,
  map fst (query_groups (ingest_all self recs)) =
  fold_left add_key (map query_type recs) (map fst (query_groups self)).
Proof.
  unfold ingest_all. induction recs as [|r recs IH]; intros self; simpl; auto.
  rewrite IH. simpl. rewrite keys_dict_append_add. reflexivity.
Qed.

Lemma reachable_keys self :
  reachable self ->
  map fst (query_groups self) = first_seen (map query_type (queries self)).
Proof.
  unfold first_seen.
  induction 1 as [li|self p c self' n R IH H|self files R IH]; simpl; auto.
  apply parse_single_file_queries in H.
  destruct H as (recs & _ & _ & -> & -> & _).
  rewrite keys_ingest_all, IH, map_app, fold_left_app. reflexivity.
Qed.

Lemma existsb_str_eqb_In k ks : existsb (str_eqb k) ks = true <-> In k ks.
Proof.
  rewrite existsb_exists. split.
  - intros (x & I & E). apply str_eqb_eq in E. subst. exact I.
  - intros I. exists k. split; [exact I|apply str_eqb_refl].
Qed.

Lemma add_key_In ks k x : In x (add_key ks k) <-> In x ks \/ x = k.
Proof.
  unfold add_key. destruct (existsb (str_eqb k) ks) eqn:E.
  - apply existsb_str_eqb_In in E. split; [auto|]. intros [H | ->]; auto.
  - rewrite in_app_iff. simpl. split; intros [H|H]; auto.
    + destruct H as [H|[]]; auto.
Qed.

Lemma add_key_NoDup ks k : NoDup ks -> NoDup (add_key ks k).
Proof.
  intros N. unfold add_key. destruct (existsb (str_eqb k) ks) eqn:E; [exact N|].
  apply NoDup_snoc; [exact N|]. intros I. apply existsb_str_eqb_In in I. congruence.
Qed.

Lemma fold_add_key_In x : forall l acc,
  In x (fold_left add_key l acc) <-> In x acc \/ In x l.
Proof.
  induction l as [|k l IH]; intros acc; simpl; [tauto|].
  rewrite IH, add_key_In. intuition auto.
Qed.

Lemma fold_add_key_NoDup : forall l acc,
  NoDup acc -> NoDup (fold_left add_key l acc).
Proof.
  induction l as [|k l IH]; intros acc N; simpl; [exact N|].
  apply IH, add_key_NoDup, N.
Qed.

(** Entries already seen stay where they are: the order is that of the
    first occurrences. *)
Lemma fold_add_key_prefix : forall l acc,
  exists more, fold_left add_key l acc = acc ++ more.
Proof.
  induction l as [|k l IH]; intros acc; simpl.
  - exists []. symmetry. apply app_nil_r.
  - destruct (IH (add_key acc k)) as [more ->]. unfold add_key.
    destruct (existsb (str_eqb k) acc); [eauto|].
    exists ([k] ++ more). rewrite app_assoc. reflexivity.
Qed.

(** X3: the keys of [query_groups] are the distinct query types of the
    records in the order in which each first occurs.  So
    [unique_query_types] is the number of distinct types, and a ranking
    that [k] does not truncate lists every type exactly once. *)
Theorem query_types_in_first_seen_order self k now :
  reachable self ->
  let types := first_seen (map query_type (queries self)) in
  map fst (query_groups self) = types /\
  NoDup types /\
  (forall t, In t types <-> exists q, In q (queries self) /\ query_type q = t) /\
  (forall l1 l2, map query_type (queries self) = l1 ++ l2 ->
     exists more, types = first_seen l1 ++ more) /\
  (forall s, get_statistics self now = Ok (Some s) ->
     unique_query_types s = length types) /\
  (covers k (length (query_groups self)) ->
   exists by_hits by_total,
     get_top_k_by_hits self k = Ok by_hits /\
     get_top_k_by_total_time self k = Ok by_total /\
     Permutation (map g_query_type by_hits) types /\
     Permutation (map g_query_type by_total) types).
Proof.
  intros R types. pose proof (reachable_keys R) as K. fold types in K.
  split; [exact K|]. split; [apply fold_add_key_NoDup; constructor|].
  split.
  { intros t. unfold types, first_seen. rewrite fold_add_key_In, in_map_iff.
    split.
    - intros [[]|(q & E & I)]. eauto.
    - intros (q & I & E). right. eauto. }
  split.
  { intros l1 l2 E. unfold types, first_seen. rewrite E, fold_left_app.
    apply fold_add_key_prefix. }
  split.
  { intros s G. pose proof (get_statistics_total self now) as T.
    destruct (queries self); rewrite T in G; [discriminate|].
    inversion G; subst s. cbn [unique_query_types].
    rewrite <- K. symmetry. apply length_map. }
  intros C. destruct (reachable_summaries_spec R) as (gs & E & Kg & _).
  assert (L : length gs = length (query_groups self)).
  { rewrite <- (length_map g_query_type gs), Kg. apply length_map. }
  unfold get_top_k_by_hits, get_top_k_by_total_time. rewrite E. simpl.
  do 2 eexists. split; [reflexivity|]. split; [reflexivity|].
  rewrite !py_slice_to_all
    by (unfold covers in *; rewrite length_sort_desc, L; exact C).
  rewrite <- K, <- Kg. split; apply Permutation_map, sort_desc_perm.
Qed.

Lemma query_types_in_first_seen_order_witness :
  let types := first_seen (map query_type (queries sample_state)) in
  map fst (query_groups sample_state) = types /\
  NoDup types /\
  (forall t, In t types <->
     exists q, In q (queries sample_state) /\ query_type q = t) /\
  (forall l1 l2, map query_type (queries sample_state) = l1 ++ l2 ->
     exists more, types = first_seen l1 ++ more) /\
  (forall s, get_statistics sample_state [] = Ok (Some s) ->
     unique_query_types s = length types) /\
  (covers 2 (length (query_groups sample_state)) ->
   exists by_hits by_total,
     get_top_k_by_hits sample_state 2 = Ok by_hits /\
     get_top_k_by_total_time sample_state 2 = Ok by_total /\
     Permutation (map g_query_type by_hits) types /\
     Permutation (map g_query_type by_total) types).
Proof.
  apply (@query_types_in_first_seen_order sample_state 2 []). sample_reachable.
Defined.

(** X4: ties are broken by first occurrence.  In every reachable state
    the summaries [gs] computed from [query_groups] stand in the order in
    which the query types first occur; each group ranking is a prefix of
    a rearrangement of [gs] in which the summaries with equal sort keys
    ([(hits, total_time)] by hits, [total_time] by total time) keep the
    order they have in [gs]. *)
Theorem ranking_ties_keep_first_seen_order self k :
  reachable self ->
  exists gs full_hits full_total n m,
    summaries (query_groups self) = Ok gs /\
    map g_query_type gs = first_seen (map query_type (queries self)) /\
    get_top_k_by_hits self k = Ok (firstn n full_hits) /\
    get_top_k_by_total_time self k = Ok (firstn m full_total) /\
    Permutation full_hits gs /\ Permutation full_total gs /\
    (forall h t,
        filter (same_hits_total h t) full_hits = filter (same_hits_total h t) gs) /\
    (forall t, filter (same_total t) full_total = filter (same_total t) gs).
Proof.
  intros R. destruct (reachable_summaries_spec R) as (gs & E & Kg & _).
  destruct (py_slice_to_firstn k (sort_desc hits_key pair_ltb gs)) as [n En].
  destruct (py_slice_to_firstn k (sort_desc total_time Z.ltb gs)) as [m Em].
  exists gs, (sort_desc hits_key pair_ltb gs), (sort_desc total_time Z.ltb gs), n, m.
  split; [exact E|]. split; [rewrite Kg; apply reachable_keys, R|].
  unfold get_top_k_by_hits, get_top_k_by_total_time. rewrite E. simpl.
  rewrite En, Em. split; [reflexivity|]. split; [reflexivity|].
  split; [apply sort_desc_perm|]. split; [apply sort_desc_perm|]. split.
  - intros h t. apply sort_desc_stable. unfold same_hits_total, hits_key.
    intros x y Hx Hy. apply andb_prop in Hx, Hy.
    destruct Hx as [Hx1 Hx2], Hy as [Hy1 Hy2].
    apply Z.eqb_eq in Hx1, Hx2, Hy1, Hy2.
    apply pair_ltb_ge. simpl. lia.
  - intros t. apply sort_desc_stable. unfold same_total.
    intros x y Hx Hy. apply Z.eqb_eq in Hx, Hy. apply Z.ltb_ge. lia.
Qed.

Lemma ranking_ties_keep_first_seen_order_witness :
  exists gs full_hits full_total n m,
    summaries (query_groups sample_state) = Ok gs /\
    map g_query_type gs = first_seen (map query_type (queries sample_state)) /\
    get_top_k_by_hits sample_state 10 = Ok (firstn n full_hits) /\
    get_top_k_by_total_time sample_state 10 = Ok (firstn m full_total) /\
    Permutation full_hits gs /\ Permutation full_total gs /\
    (forall h t,
        filter (same_hits_total h t) full_hits = filter (same_hits_total h t) gs) /\
    (forall t, filter (same_total t) full_total = filter (same_total t) gs).
Proof.
  apply (@ranking_ties_keep_first_seen_order sample_state 10). sample_reachable.
Defined.





Lemma is_max_unique m1 m2 l : is_max m1 l -> is_max m2 l -> m1 = m2.
Proof.
  intros [I1 F1] [I2 F2]. rewrite Forall_forall in F1, F2.
  specialize (F1 _ I2). specialize (F2 _ I1). lia.
Qed.

(** X6: the slowest record heads the ranking by time.  Whenever
    [get_top_k_by_time] returns a non-empty list, the execution time of
    its first entry is the [max_execution_time] of [get_statistics], and
    no entry of either list of times exceeds it. *)
Theorem slowest_record_heads_ranking self k now s r rest :
  get_statistics self now = Ok (Some s) ->
  get_top_k_by_time self k = r :: rest ->
  execution_time r = max_execution_time s /\
  In r (queries self) /\
  Forall (fun q => execution_time q <= execution_time r) (queries self).
Proof.
  intros G T. unfold get_top_k_by_time in T.
  destruct (py_slice_to_firstn k (sort_desc execution_time Z.ltb (queries self)))
    as [n En]. rewrite En in T.
  pose proof (sort_desc_perm execution_time Z.ltb (queries self)) as P.
  pose proof (sort_desc_sorted execution_time Z.ltb Z_ltb_asym Z_not_below_trans
                (queries self)) as S.
  destruct (sort_desc execution_time Z.ltb (queries self)) as [|x full] eqn:Es;
    [destruct n; discriminate|].
  destruct n; [discriminate|]. simpl in T. inversion T; subst x; clear T.
  inversion S as [|? ? _ F]; subst.
  assert (I : In r (queries self))
    by (eapply Permutation_in; [exact P|left; reflexivity]).
  assert (Fq : Forall (fun q => execution_time q <= execution_time r) (queries self)).
  { rewrite Forall_forall. intros q Hq.
    apply Permutation_sym in P. apply (Permutation_in _ P) in Hq.
    destruct Hq as [-> | Hq]; [lia|].
    rewrite Forall_forall in F. specialize (F _ Hq).
    unfold not_below in F. apply Z.ltb_ge in F. exact F. }
  split; [|split; [exact I|exact Fq]].
  pose proof (get_statistics_total self now) as Tt.
  destruct (queries self) as [|q0 l0] eqn:Eq; rewrite Tt in G; [discriminate|].
  inversion G; subst s; clear G. cbn [max_execution_time map hd tl].
  apply is_max_unique with (map execution_time (q0 :: l0)).
  - split; [apply in_map, I|].
    rewrite Forall_forall. intros t Ht. apply in_map_iff in Ht.
    destruct Ht as (q & <- & Hq). rewrite Forall_forall in Fq. auto.
  - apply (fold_left_max (map execution_time l0) (execution_time q0)).
Qed.

Lemma slowest_record_heads_ranking_witness :
  execution_time (hd (Build_query_info [] 0 [] [] [] [] [] [])
                    (get_top_k_by_time sample_state 2)) = 1500.
Proof.
  assert (G : exists s, get_statistics sample_state [] = Ok (Some s) /\
                        max_execution_time s = 1500)
    by (eexists; split; vm_compute; reflexivity).
  destruct G as (s & G & M).
  destruct (get_top_k_by_time sample_state 2) as [|r rest] eqn:T;
    [vm_compute in T; discriminate|].
  destruct (@slowest_record_heads_ranking sample_state 2 [] s r rest G T)
    as (H & _). simpl. congruence.
Defined.

(* ================================================================= *)
(** ** Further properties: records and runs *)

Lemma strip_no_trailing s : starts is_space (rev (strip s)) = false.
Proof. unfold strip. rewrite rev_involutive. apply starts_drop_while. Qed.

Lemma strip_no_leading s : starts is_space (strip s) = false.
Proof.
  unfold strip. set (a := drop_while is_space s).
  assert (Ha : starts is_space a = false) by apply starts_drop_while.
  pose proof (take_drop_while is_space (rev a)) as TD.
  apply (f_equal (@rev ascii)) in TD.
  rewrite rev_app_distr, rev_involutive in TD.
  destruct (rev (drop_while is_space (rev a))) as [|c b]; [reflexivity|].
  rewrite <- TD in Ha. exact Ha.
Qed.

Lemma strip_forallb p s : forallb p s = true -> forallb p (strip s) = true.
Proof.
  intros F. destruct (strip_spec s) as (a & b & E & _).
  rewrite E, !forallb_app in F.
  apply andb_prop in F. destruct F as [_ F].
  apply andb_prop in F. tauto.
Qed.

Lemma preview_length q : (length (preview q) <= 203)%nat.
Proof.
  unfold preview. destruct (Nat.ltb 200 (length q)) eqn:E.
  - rewrite length_app, length_firstn.
    change (length $"...") with 3%nat. lia.
  - apply Nat.ltb_ge in E. lia.
Qed.

Lemma built_record_shape file_path content caps r :
  wf_caps content caps -> built_from file_path caps r -> record_shape r.
Proof.
  intros (ts & ms & q & -> & T & _ & _ & Q & _)
         (Ht & _ & Pos & Hq & Hc & _ & Hp & _).
  unfold group in *. simpl in *. unfold record_shape.
  rewrite Ht, Hp. split; [exact T|]. split; [exact Pos|].
  rewrite Hq at 1 2 3.
  split; [apply strip_forallb, Q|]. split; [apply strip_no_leading|].
  split; [apply strip_no_trailing|]. split; [exact Hc|].
  split; [reflexivity|apply preview_length].
Qed.

Lemma file_records_spec file_path content :
  extract_records file_path content = Ok (file_records file_path content) /\
  length (file_records file_path content) = count_of content /\
  Forall record_shape (file_records file_path content) /\
  Forall (fun r => source_file r = basename file_path)
    (file_records file_path content).
Proof.
  destruct (extract_records_ok file_path content) as (recs & E & B).
  unfold file_records. rewrite E. split; [reflexivity|].
  split; [symmetry; apply (Forall2_length B)|].
  pose proof (findall_pattern_wf content) as W.
  unfold count_of. clear E.
  induction B as [|caps r ms recs Hb B IH]; [split; constructor|].
  inversion W as [|? ? Wc W']; subst. destruct (IH W') as [IH1 IH2].
  split; constructor; auto.
  - eapply built_record_shape; eauto.
  - apply Hb.
Qed.

Lemma parse_single_file_records self file_path content :
  exists self',
    _parse_single_file self file_path content = Ok (self', count_of content) /\
    queries self' = queries self ++ file_records file_path content /\
    file_list self' = file_list self /\
    file_stats self' =
      (if Nat.eqb (count_of content) 0 then file_stats self
       else dict_set file_path (stat_of file_path content) (file_stats self)).
Proof.
  destruct (file_records_spec file_path content) as (E & L & _).
  rewrite parse_single_file_eq, E. cbn [bind]. rewrite <- L.
  destruct (file_records file_path content) as [|r recs] eqn:F.
  - exists self. rewrite app_nil_r. simpl. auto.
  - eexists. split; [reflexivity|].
    unfold set_file_stats. cbn [queries file_list file_stats].
    rewrite queries_ingest_all, file_list_ingest_all, file_stats_ingest_all.
    unfold stat_of. rewrite <- L. simpl Nat.eqb. auto.
Qed.

Lemma parse_files_records : forall files self,
  exists self',
    parse_files self files = Ok self' /\
    queries self' = queries self ++ run_records files /\
    file_list self' = file_list self /\
    file_stats self' = fold_left record_stat files (file_stats self).
Proof.
  induction files as [|[p c] files IH]; intros self; simpl.
  - exists self. rewrite app_nil_r. auto.
  - destruct (parse_single_file_records self p c) as (s1 & -> & Q1 & L1 & S1).
    simpl. destruct (IH s1) as (s2 & -> & Q2 & L2 & S2).
    exists s2. split; [reflexivity|].
    rewrite Q2, Q1, L2, L1, S2, S1, <- app_assoc. auto.
Qed.

(** X7: what every ingested record looks like.  In every reachable state
    each record has a timestamp of the shape [YYYY-MM-DD HH:MM:SS.mmm], a
    non-negative execution time, a query text without single quote and
    without blank at either end, the operation and table the classifier
    gives for that stored text, and a preview computed from it of at most
    203 characters. *)
Theorem ingested_records_shape self :
  reachable self -> Forall record_shape (queries self).
Proof.
  induction 1 as [li|self p c self' n R IH H|self files R IH]; simpl.
  - constructor.
  - destruct (parse_single_file_records self p c) as (s1 & P & Q & _).
    rewrite P in H. inversion H; subst. rewrite Q.
    apply Forall_app. split; [exact IH|apply file_records_spec].
  - exact IH.
Qed.

Lemma ingested_records_shape_witness :
  Forall record_shape (queries sample_state).
Proof.
  apply (@ingested_records_shape sample_state). sample_reachable.
Defined.

(** X8: a run appends the records file by file.  On every analyzer and
    every list of files [parse_log_files] returns; the records are the
    old ones followed by those of the first file, then those of the
    second, and so on, each file contributing one record per match, all
    tagged with the base name of its path; [file_list] is the list of the
    paths. *)
Theorem run_appends_records_in_file_order self files :
  exists self',
    parse_log_files self files = Ok self' /\
    queries self' = queries self ++ run_records files /\
    file_list self' = map fst files /\
    Forall
      (fun pc =>
         length (file_records (fst pc) (snd pc)) = count_of (snd pc) /\
         Forall (fun r => source_file r = basename (fst pc))
           (file_records (fst pc) (snd pc)))
      files.
Proof.
  unfold parse_log_files.
  destruct (parse_files_records files
              {| log_input := log_input self; file_list := map fst files;
                 queries := queries self; query_groups := query_groups self;
                 file_stats := file_stats self |}) as (s & P & Q & L & _).
  exists s. split; [exact P|]. split; [exact Q|]. split; [exact L|].
  apply Forall_forall. intros [p c] _. simpl.
  destruct (file_records_spec p c) as (_ & Len & _ & Src). auto.
Qed.

Lemma stats_of_NoDup files :
  NoDup (map fst files) -> NoDup (map fst (stats_of files)).
Proof.
  induction files as [|[p c] files IH]; simpl; intros N; [constructor|].
  inversion N as [|? ? Np N']; subst.
  destruct (Nat.eqb (count_of c) 0); [auto|].
  simpl. constructor; [|auto]. intros I. apply Np. eapply stats_of_keys; eauto.
Qed.

Lemma stats_of_get files p c :
  NoDup (map fst files) -> In (p, c) files -> count_of c <> 0%nat ->
  dict_get p (stats_of files) = Some (stat_of p c).
Proof.
  intros N I Nz. apply In_dict_get; [apply stats_of_NoDup, N|].
  induction files as [|[p0 c0] files IH]; simpl in *; [contradiction|].
  inversion N as [|? ? Np N']; subst.
  destruct I as [I|I].
  - inversion I; subst. apply Nat.eqb_neq in Nz. rewrite Nz. left. reflexivity.
  - destruct (Nat.eqb (count_of c0) 0); [auto|]. right. auto.
Qed.

Lemma dict_set_same V k (v : V) : forall d,
  dict_get k d = Some v -> dict_set k v d = d.
Proof.
  induction d as [|[k0 v0] d IH]; simpl; intros H; [discriminate|].
  destruct (str_eqb k0 k).
  - inversion H; subst. reflexivity.
  - rewrite IH; auto.
Qed.

(** X9: parsing is not idempotent on one analyzer.  When a fresh analyzer
    has parsed files with distinct paths and is made to parse the same
    files again, every record is ingested a second time, while
    [file_stats] stays as it was, so its counts then cover half of the
    records. *)
Theorem second_run_doubles_records li files :
  NoDup (map fst files) ->
  exists s1 s2,
    parse_log_files (__init__ li) files = Ok s1 /\
    parse_log_files s1 files = Ok s2 /\
    queries s2 = queries s1 ++ queries s1 /\
    file_stats s2 = file_stats s1 /\
    file_list s2 = file_list s1.
Proof.
  intros N.
  destruct (@parse_log_files_run li _ N) as (s1 & P1 & _ & _ & L1 & S1).
  destruct (run_appends_records_in_file_order (__init__ li) files)
    as (s1' & P1' & Q1 & _).
  rewrite P1 in P1'. inversion P1'; subst s1'. simpl in Q1.
  exists s1. unfold parse_log_files at 2.
  destruct (parse_files_records files
              {| log_input := log_input s1; file_list := map fst files;
                 queries := queries s1; query_groups := query_groups s1;
                 file_stats := file_stats s1 |}) as (s2 & P2 & Q2 & L2 & S2).
  exists s2. split; [exact P1|]. split; [exact P2|].
  cbn [queries file_list file_stats] in Q2, L2, S2.
  split; [rewrite Q2, Q1; reflexivity|]. split; [|congruence].
  rewrite S2, S1.
  assert (G : forall fs,
             (forall p c, In (p, c) fs -> In (p, c) files) ->
             fold_left record_stat fs (stats_of files) = stats_of files).
  { induction fs as [|[p c] fs IH]; intros Sub; simpl; [reflexivity|].
    assert (E : record_stat (stats_of files) (p, c) = stats_of files).
    { unfold record_stat. simpl.
      destruct (Nat.eqb (count_of c) 0) eqn:Z; [reflexivity|].
      apply Nat.eqb_neq in Z. apply dict_set_same.
      apply stats_of_get; auto. apply Sub. left. reflexivity. }
    rewrite E. apply IH. intros. apply Sub. right. assumption. }
  apply G. auto.
Qed.

Lemma second_run_doubles_records_witness :
  exists s1 s2,
    parse_log_files (__init__ $"logs") sample_files = Ok s1 /\
    parse_log_files s1 sample_files = Ok s2 /\
    queries s2 = queries s1 ++ queries s1 /\
    file_stats s2 = file_stats s1 /\
    file_list s2 = file_list s1.
Proof.
  apply (@second_run_doubles_records $"logs" sample_files).
  constructor; [simpl; tauto|constructor].
Defined.

Lemma build_source_files_distinct : forall stats acc,
  NoDup (map fst acc ++ map (fun x => fs_basename (snd x)) stats) ->
  fold_left add_source_file stats acc =
  acc ++ map (fun x => (fs_basename (snd x), entry_of (snd x))) stats.
Proof.
  induction stats as [|[p st] stats IH]; intros acc N; simpl.
  - symmetry. apply app_nil_r.
  - assert (A : add_source_file acc (p, st) = acc ++ [(fs_basename st, entry_of st)]).
    { unfold add_source_file. simpl. apply dict_set_absent.
      apply dict_get_None. intros I. simpl in N.
      apply NoDup_remove_2 in N. apply N. apply in_or_app. left. exact I. }
    rewrite A, IH.
    + rewrite <- app_assoc. reflexivity.
    + rewrite map_app. simpl. rewrite <- app_assoc. exact N.
Qed.

Lemma stats_of_counts files :
  list_sum (map (fun x => fs_queries (snd x)) (stats_of files)) = total_count files.
Proof.
  induction files as [|[p c] files IH]; simpl; [reflexivity|].
  destruct (Nat.eqb (count_of c) 0) eqn:Z.
  - apply Nat.eqb_eq in Z. rewrite Z. exact IH.
  - simpl. rewrite IH. reflexivity.
Qed.

Lemma stats_of_basenames files :
  map (fun x => fs_basename (snd x)) (stats_of files) = matching_basenames files.
Proof.
  unfold matching_basenames.
  induction files as [|[p c] files IH]; simpl; [reflexivity|].
  destruct (Nat.eqb (count_of c) 0); simpl; rewrite IH; reflexivity.
Qed.

(** X10: the per-file counts add up.  After a run of a fresh analyzer over
    files with distinct paths, the [queries] counts of [file_stats] add
    up to the number of records; when moreover the files with entries
    have distinct base names, [source_files] has one entry for each of
    them, in processing order, and its counts add up to
    [total_slow_queries]. *)
Theorem file_counts_add_up li files now :
  NoDup (map fst files) ->
  exists self,
    parse_log_files (__init__ li) files = Ok self /\
    list_sum (map (fun x => fs_queries (snd x)) (file_stats self))
      = length (queries self) /\
    (NoDup (matching_basenames files) ->
     forall s,
       get_statistics self now = Ok (Some s) ->
       map fst (source_files s) = matching_basenames files /\
       list_sum (map (fun x => se_queries (snd x)) (source_files s))
         = total_slow_queries s).
Proof.
  intros N.
  destruct (@parse_log_files_run li _ N) as (self & P & _ & Q & _ & S).
  exists self. split; [exact P|].
  split; [rewrite S, Q; apply stats_of_counts|].
  intros Nb s G. pose proof (get_statistics_total self now) as T.
  destruct (queries self) as [|q l] eqn:E; rewrite T in G; [discriminate|].
  inversion G; subst s; clear G. cbn [source_files total_slow_queries].
  unfold build_source_files. rewrite build_source_files_distinct
    by (simpl; rewrite S, stats_of_basenames; exact Nb).
  rewrite S. simpl app. rewrite !map_map.
  cbn [fst snd entry_of se_queries].
  split; [apply stats_of_basenames|].
  change (Datatypes.S (length l)) with (length (q :: l)).
  rewrite Q. apply stats_of_counts.
Qed.

Lemma file_counts_add_up_witness :
  exists self,
    parse_log_files (__init__ $"logs")
      [($"a/repository.log", example_line); ($"b/repository1.log", sample_log)]
    = Ok self /\
    list_sum (map (fun x => fs_queries (snd x)) (file_stats self))
      = length (queries self) /\
    (NoDup (matching_basenames
              [($"a/repository.log", example_line);
               ($"b/repository1.log", sample_log)]) ->
     forall s,
       get_statistics self [] = Ok (Some s) ->
       map fst (source_files s) =
         matching_basenames
           [($"a/repository.log", example_line);
            ($"b/repository1.log", sample_log)] /\
       list_sum (map (fun x => se_queries (snd x)) (source_files s))
         = total_slow_queries s).
Proof.
  apply (@file_counts_add_up $"logs"
           [($"a/repository.log", example_line);
            ($"b/repository1.log", sample_log)] []).
  constructor; [simpl; intros [H|[]]; vm_compute in H; discriminate H|].
  constructor; [simpl; tauto|constructor].
Defined.

(* ================================================================= *)
(** ** Further properties: finding and reading the files *)

Lemma code_inj x y : code x = code y -> x = y.
Proof.
  unfold code. intros H.
  rewrite <- (ascii_nat_embedding x), <- (ascii_nat_embedding y), H. reflexivity.
Qed.

Lemma str_ltb_irrefl : forall a, str_ltb a a = false.
Proof.
  induction a as [|x a IH]; simpl; [reflexivity|].
  rewrite Nat.ltb_irrefl, Nat.eqb_refl. exact IH.
Qed.

Lemma str_ltb_cons x a y b :
  str_ltb (x :: a) (y :: b) = true <->
  (code x < code y)%nat \/ (code x = code y /\ str_ltb a b = true).
Proof.
  simpl. destruct (Nat.ltb (code x) (code y)) eqn:L.
  - apply Nat.ltb_lt in L. tauto.
  - apply Nat.ltb_ge in L. destruct (Nat.eqb (code x) (code y)) eqn:E.
    + apply Nat.eqb_eq in E. split; [auto|]. intros [H|[_ H]]; [lia|exact H].
    + apply Nat.eqb_neq in E. split; [discriminate|]. intros [H|[H _]]; lia.
Qed.

Lemma str_ltb_trans : forall a b c,
  str_ltb a b = true -> str_ltb b c = true -> str_ltb a c = true.
Proof.
  induction a as [|x a IH]; intros [|y b] [|z c] H1 H2;
    try discriminate; try reflexivity.
  apply str_ltb_cons in H1. apply str_ltb_cons in H2. apply str_ltb_cons.
  destruct H1 as [H1|[E1 H1]], H2 as [H2|[E2 H2]]; try (left; lia).
  right. split; [lia|]. eapply IH; eauto.
Qed.

Lemma str_ltb_total : forall a b,
  str_ltb a b = false -> str_eqb a b = false -> str_ltb b a = true.
Proof.
  induction a as [|x a IH]; intros [|y b] L E; simpl in *; try congruence.
  - rewrite str_eqb_refl in E. discriminate.
  - destruct (Nat.ltb (code x) (code y)) eqn:Lxy; [discriminate|].
    apply Nat.ltb_ge in Lxy.
    destruct (Nat.eqb (code x) (code y)) eqn:Exy.
    + apply Nat.eqb_eq in Exy.
      replace (Nat.ltb (code y) (code x)) with false
        by (symmetry; apply Nat.ltb_ge; lia).
      replace (Nat.eqb (code y) (code x)) with true
        by (symmetry; apply Nat.eqb_eq; lia).
      apply IH; [exact L|]. apply str_eqb_neq. apply str_eqb_neq in E.
      intros ->. apply E. f_equal. apply code_inj. exact Exy.
    + apply Nat.eqb_neq in Exy.
      replace (Nat.ltb (code y) (code x)) with true
        by (symmetry; apply Nat.ltb_lt; lia).
      reflexivity.
Qed.

Lemma insert_uniq_In x z : forall l, In z (insert_uniq x l) <-> z = x \/ In z l.
Proof.
  induction l as [|y l IH]; simpl.
  - intuition auto.
  - destruct (str_ltb x y); [simpl; intuition auto|].
    destruct (str_eqb x y) eqn:E.
    + apply str_eqb_eq in E. subst. simpl. intuition auto.
    + simpl. rewrite IH. intuition auto.
Qed.

Lemma insert_uniq_sorted x : forall l,
  StronglySorted str_lt l -> StronglySorted str_lt (insert_uniq x l).
Proof.
  induction l as [|y l IH]; simpl; intros S.
  - repeat constructor.
  - inversion S as [|? ? S' F]; subst.
    destruct (str_ltb x y) eqn:L.
    + constructor; [exact S|]. constructor; [exact L|].
      eapply Forall_impl; [|exact F]. intros z Hz. eapply str_ltb_trans; eauto.
    + destruct (str_eqb x y) eqn:E; [exact S|].
      constructor; [apply IH, S'|].
      apply Forall_forall. intros z Hz. apply insert_uniq_In in Hz.
      destruct Hz as [-> | Hz]; [apply str_ltb_total; auto|].
      rewrite Forall_forall in F. auto.
Qed.

Lemma sorted_set_sorted l : StronglySorted str_lt (sorted_set l).
Proof.
  induction l as [|x l IH]; simpl; [constructor|]. apply insert_uniq_sorted, IH.
Qed.

Lemma sorted_set_In z l : In z (sorted_set l) <-> In z l.
Proof.
  induction l as [|x l IH]; simpl; [tauto|].
  rewrite insert_uniq_In, IH. intuition auto.
Qed.

Lemma strictly_sorted_NoDup l : StronglySorted str_lt l -> NoDup l.
Proof.
  induction 1 as [|x l S IH F]; constructor; auto.
  intros I. rewrite Forall_forall in F. specialize (F _ I).
  unfold str_lt in F. rewrite str_ltb_irrefl in F. discriminate.
Qed.

(** A strictly ascending list is determined by its entries. *)
Lemma strictly_sorted_unique : forall l1 l2,
  StronglySorted str_lt l1 -> StronglySorted str_lt l2 ->
  (forall x, In x l1 <-> In x l2) -> l1 = l2.
Proof.
  induction l1 as [|x l1 IH]; intros l2 S1 S2 E.
  - destruct l2 as [|y l2]; [reflexivity|].
    exfalso. apply (proj2 (E y)). left. reflexivity.
  - destruct l2 as [|y l2]; [exfalso; apply (proj1 (E x)); left; reflexivity|].
    inversion S1 as [|? ? S1' F1]; subst. inversion S2 as [|? ? S2' F2]; subst.
    rewrite Forall_forall in F1, F2.
    assert (x = y).
    { destruct (proj1 (E x) (or_introl eq_refl)) as [->|Ix]; [reflexivity|].
      destruct (proj2 (E y) (or_introl eq_refl)) as [->|Iy]; [reflexivity|].
      specialize (F1 _ Iy). specialize (F2 _ Ix).
      pose proof (str_ltb_trans _ _ _ F1 F2) as C.
      rewrite str_ltb_irrefl in C. discriminate. }
    subst y. f_equal. apply IH; auto.
    intros z. split; intros Iz.
    + destruct (proj1 (E z) (or_intror Iz)) as [->|H]; [|exact H].
      specialize (F1 _ Iz). unfold str_lt in F1.
      rewrite str_ltb_irrefl in F1. discriminate.
    + destruct (proj2 (E z) (or_intror Iz)) as [->|H]; [|exact H].
      specialize (F2 _ Iz). unfold str_lt in F2.
      rewrite str_ltb_irrefl in F2. discriminate.
Qed.

Lemma sorted_set_characterised l l' :
  StronglySorted str_lt l' -> (forall x, In x l' <-> In x l) ->
  l' = sorted_set l.
Proof.
  intros S E. apply strictly_sorted_unique; [exact S|apply sorted_set_sorted|].
  intros x. rewrite E, sorted_set_In. tauto.
Qed.

Lemma StronglySorted_filter A (R : A -> A -> Prop) f l :
  StronglySorted R l -> StronglySorted R (filter f l).
Proof.
  induction 1 as [|x l S IH F]; simpl; [constructor|].
  destruct (f x); [|exact IH]. constructor; [exact IH|].
  rewrite Forall_forall in *. intros y Hy. apply F.
  apply filter_In in Hy. tauto.
Qed.

Lemma find_repository_files_sorted fs input_path :
  StronglySorted str_lt (_find_repository_files fs input_path).
Proof.
  unfold _find_repository_files.
  apply StronglySorted_filter, sorted_set_sorted.
Qed.

Lemma find_repository_files_In fs input_path f :
  In f (_find_repository_files fs input_path) <->
  In f (candidate_files fs input_path) /\ path_exists fs f = true.
Proof.
  unfold _find_repository_files. rewrite filter_In, sorted_set_In. tauto.
Qed.

(** X11: the discovered files.  Whatever the file system answers, the
    list [_find_repository_files] returns is strictly ascending in the
    order of Python's strings, so without repetition; each of its paths
    exists; and it holds exactly the existing paths among those the input
    led to. *)
Theorem discovered_files_sorted_distinct_existing fs input_path :
  StronglySorted str_lt (_find_repository_files fs input_path) /\
  NoDup (_find_repository_files fs input_path) /\
  Forall (fun f => path_exists fs f = true) (_find_repository_files fs input_path) /\
  (forall f,
      In f (_find_repository_files fs input_path) <->
      In f (candidate_files fs input_path) /\ path_exists fs f = true).
Proof.
  pose proof (find_repository_files_sorted fs input_path) as S.
  split; [exact S|]. split; [apply strictly_sorted_NoDup, S|]. split.
  - apply Forall_forall. intros f Hf.
    apply find_repository_files_In in Hf. tauto.
  - intros f. apply find_repository_files_In.
Qed.

(** X12: a name that is no file falls back to the directory.  When the
    input is neither a file nor a directory and has no wildcard, the
    repository logs of its directory (or of [.]) are what is returned, as
    soon as there is one: the named path itself is then looked at only if
    a pattern yields it.  Only when the patterns yield nothing is the
    named path tried, and returned if it exists. *)
Theorem missing_name_falls_back_to_directory fs input_path :
  isfile fs input_path = false ->
  isdir fs input_path = false ->
  no_wildcard input_path = true ->
  let found :=
    flat_map (glob fs) (repository_patterns (fallback_dir input_path)) in
  (found <> [] ->
   forall f,
     In f (_find_repository_files fs input_path) <->
     In f found /\ path_exists fs f = true) /\
  (found = [] ->
   _find_repository_files fs input_path =
   if path_exists fs input_path then [input_path] else []).
Proof.
  intros F D W found.
  assert (C : candidate_files fs input_path =
              match found with [] => [input_path] | _ => found end).
  { unfold candidate_files. rewrite F, D.
    unfold no_wildcard in W. apply negb_true_iff in W. rewrite W.
    subst found. unfold fallback_dir. cbv zeta.
    destruct (flat_map _ _); reflexivity. }
  split.
  - intros N f.
    rewrite find_repository_files_In.
    rewrite C. destruct found; [congruence|tauto].
  - intros E. unfold _find_repository_files. rewrite C, E. simpl.
    destruct (path_exists fs input_path); reflexivity.
Qed.

Lemma missing_name_falls_back_to_directory_witness :
  In $"logs/repository.log" (_find_repository_files sample_fs $"logs/app.log").
Proof.
  apply (proj1 (@missing_name_falls_back_to_directory sample_fs $"logs/app.log"
                  eq_refl eq_refl eq_refl)).
  - vm_compute. discriminate.
  - split; [vm_compute; tauto|reflexivity].
Defined.





(** X14: of an archive only the first repository log is read.  When the
    members of an archive are [before ++ m :: after], no member of
    [before] is a regular file whose name ends in [repository.log] and
    [m] is one, the text returned is that of [m], or the empty text when
    [m] cannot be extracted or decoded; the members after [m] are never
    looked at, not even when [m] fails and one of them is a repository
    log too. *)
Theorem archive_first_repository_log_is_read fs tar_path before m after :
  tar_members fs tar_path = Some (before ++ m :: after) ->
  Forall (fun x => is_repository_log x = false) before ->
  is_repository_log m = true ->
  _extract_from_tar_gz fs tar_path =
  match tm_extract m with
  | Some (Some text) => text
  | _ => []
  end.
Proof.
  intros T B M. unfold _extract_from_tar_gz. rewrite T.
  assert (F : filter is_repository_log (before ++ m :: after) =
              m :: filter is_repository_log after).
  { rewrite filter_app. simpl. rewrite M.
    replace (filter is_repository_log before) with (@nil tar_member);
      [reflexivity|].
    clear T. induction B as [|x l H B IH]; simpl; [reflexivity|].
    rewrite H. exact IH. }
  rewrite F. destruct (tm_extract m) as [[text|]|]; reflexivity.
Qed.

Lemma archive_first_repository_log_is_read_witness :
  _extract_from_tar_gz sample_fs $"logs/old.tar.gz" = example_line.
Proof.
  apply (@archive_first_repository_log_is_read sample_fs $"logs/old.tar.gz"
           [ {| tm_name := $"notes.txt"; tm_isfile := true;
                tm_extract := Some (Some quiet_log) |} ]
           {| tm_name := $"var/repository.log"; tm_isfile := true;
              tm_extract := Some (Some example_line) |}
           [ {| tm_name := $"var/old-repository.log"; tm_isfile := true;
                tm_extract := Some (Some sample_log) |} ]).
  - reflexivity.
  - constructor; [reflexivity|constructor].
  - reflexivity.
Defined.

(** X15: a path that cannot be opened changes nothing.  When the path
    can be opened neither as an archive, nor as a gzip file, nor as a
    text file, then, whatever its suffix, [_read_file_content] returns
    the empty text and [_parse_single_file] returns 0 and leaves the
    analyzer, its [file_stats] included, as it is: no exception of the
    reading reaches the caller. *)
Theorem unopenable_path_changes_nothing fs self file_path :
  tar_members fs file_path = None ->
  gzip_text fs file_path = None ->
  open_text fs file_path = None ->
  _read_file_content fs file_path = [] /\
  parse_single_file_on fs self file_path = Ok (self, 0%nat).
Proof.
  intros T G O.
  assert (E : _read_file_content fs file_path = []).
  { unfold _read_file_content, _extract_from_tar_gz. rewrite T, G, O.
    destruct (_ || _)%bool; [reflexivity|].
    destruct (endswith _ _); reflexivity. }
  split; [exact E|]. unfold parse_single_file_on. rewrite E. reflexivity.
Qed.

Lemma unopenable_path_changes_nothing_witness :
  parse_single_file_on sample_fs sample_state $"logs/missing.gz" =
  Ok (sample_state, 0%nat).
Proof.
  apply (@unopenable_path_changes_nothing sample_fs sample_state
           $"logs/missing.gz"); reflexivity.
Defined.





(** X17: the layout test of the renderers on what [main] selects.  In a
    reachable state with at least one record, which is where [main] gets
    to the renderers, the selection returns; for [sort_by] other than
    [time] the test [sort_by == 'time' and 'execution_time' in data[0]]
    is false, empty list or not, and the layout of groups is used; for
    [time] it is true when the ranking has an element and raises
    [IndexError] when it is empty, which happens exactly when [top_k] is
    0 or at most minus the number of records. *)
Theorem layout_test_on_selected_data self sort_by top_k :
  reachable self ->
  queries self <> [] ->
  exists data,
    select_data self sort_by top_k = Ok data /\
    (sort_by <> $"time" -> individual_layout data sort_by = Ok false) /\
    (sort_by = $"time" ->
     (top_k = 0 \/ top_k <= - Z.of_nat (length (queries self)) ->
      individual_layout data sort_by = Raise IndexError) /\
     (top_k <> 0 -> - Z.of_nat (length (queries self)) < top_k ->
      individual_layout data sort_by = Ok true)).
Proof.
  intros R Q.
  destruct (reachable_summaries R) as (gs & S & _).
  assert (T : forall data, sort_by <> $"time" ->
                           individual_layout data sort_by = Ok false).
  { intros data N. unfold individual_layout.
    destruct (str_eqb sort_by $"time") eqn:E; [|reflexivity].
    apply str_eqb_eq in E. contradiction. }
  unfold select_data.
  destruct (str_eqb sort_by $"hits") eqn:H.
  { unfold get_top_k_by_hits. rewrite S. cbn [bind].
    eexists. split; [reflexivity|]. split; [apply T|].
    intros E. subst. discriminate. }
  destruct (str_eqb sort_by $"time") eqn:E.
  2:{ unfold get_top_k_by_total_time. rewrite S. cbn [bind].
      eexists. split; [reflexivity|]. split; [apply T|].
      intros E'. subst. discriminate. }
  eexists. split; [reflexivity|]. split.
  { intros N. apply str_eqb_eq in E. contradiction. }
  intros _. unfold individual_layout. rewrite E.
  unfold get_top_k_by_time.
  set (l := sort_desc execution_time Z.ltb (queries self)).
  assert (Ll : length l = length (queries self)) by apply length_sort_desc.
  assert (Lq : (0 < length (queries self))%nat).
  { destruct (queries self); [congruence|simpl; lia]. }
  destruct (py_slice_to_length top_k l) as [Pos Neg].
  split.
  - intros K.
    assert (Z0 : length (py_slice_to top_k l) = 0%nat).
    { destruct (Z_lt_le_dec top_k 0) as [Lt|Ge].
      - specialize (Neg Lt). lia.
      - specialize (Pos Ge). lia. }
    destruct (py_slice_to top_k l); [reflexivity|discriminate].
  - intros K0 K.
    assert (Z0 : length (py_slice_to top_k l) <> 0%nat).
    { destruct (Z_lt_le_dec top_k 0) as [Lt|Ge].
      - specialize (Neg Lt). lia.
      - specialize (Pos Ge). lia. }
    destruct (py_slice_to top_k l); [contradiction|reflexivity].
Qed.

Lemma layout_test_on_selected_data_witness :
  exists data,
    select_data sample_state $"time" 0 = Ok data /\
    individual_layout data $"time" = Raise IndexError.
Proof.
  destruct (@layout_test_on_selected_data sample_state $"time" 0)
    as (data & S & _ & T).
  - sample_reachable.
  - vm_compute. discriminate.
  - exists data. split; [exact S|]. apply (proj1 (T eq_refl)). now left.
Defined.
